(** * midi-piano-roll-react: edit history, tempo entry, grid editing and hit testing

    A shallow embedding of the editing core of the piano-roll application:
    the undo/redo history and the tempo entry points of the application
    shell ([App]), and the keyboard editing, active-note and hit-test code of
    the roll component ([HorizontalPianoRoll]); further the shell's keyboard
    shortcuts and MusicXML export, the roll's mouse handlers, grid lines and
    keyboard layout, and the staves of the notation panel
    ([MusicNotation]).

    Number model.  JavaScript numbers are modelled as exact rationals ([Q]),
    compared up to [Qeq]; integers that the source keeps integral (pitches,
    millisecond time stamps, array indices) are [Z] or [nat].  Rounding error,
    NaN and the infinities are outside this model; the one place where the
    source divides by a value that can be zero (tap tempo) is written out. *)

From Stdlib Require Import ZArith QArith Qround Lia Lqa Sorted.
From stdpp Require Import base gmap sets list strings.

Local Open Scope Z_scope.

(** ** JavaScript arithmetic helpers *)

Module JS.

(** [Math.round]: the nearest integer, ties towards plus infinity. *)
Definition Math_round (x : Q) : Z := Qfloor (x + (1 # 2))%Q.

Definition Qltb (a b : Q) : bool := negb (Qle_bool b a).

(** [Math.max(a, b)] and [Math.min(a, b)] on finite numbers. *)
Definition Math_max (a b : Q) : Q := if Qle_bool a b then b else a.
Definition Math_min (a b : Q) : Q := if Qle_bool a b then a else b.

(** [arr[i]] for a possibly negative or out-of-range index: [undefined]
    is [None]. *)
Definition index {A} (arr : list A) (i : Z) : option A :=
  if i <? 0 then None else arr !! Z.to_nat i.

(** [arr.slice(0, e)]: a negative end counts from the end of the array. *)
Definition slice0 {A} (arr : list A) (e : Z) : list A :=
  if e <? 0 then take (Z.to_nat (Z.of_nat (length arr) + e)) arr
  else take (Z.to_nat e) arr.

(** [arr.shift()], as far as the array is concerned. *)
Definition shift {A} (arr : list A) : list A := tail arr.

(** [arr.findIndex(p)]: the first index whose element satisfies [p],
    or [-1]. *)
Fixpoint findIndex_from {A} (p : A → bool) (arr : list A) (i : Z) : Z :=
  match arr with
  | [] => -1
  | x :: rest => if p x then i else findIndex_from p rest (i + 1)
  end.

Definition findIndex {A} (p : A → bool) (arr : list A) : Z :=
  findIndex_from p arr 0.

End JS.

(** ** Notes *)

(** [interface Note { pitch; startTime; duration; velocity? }]. *)
Record Note : Type := mkNote {
  pitch : Z;
  startTime : Q;
  duration : Q;
  velocity : option Z
}.

Definition Note_with_startTime (n : Note) (t : Q) : Note :=
  {| pitch := pitch n; startTime := t; duration := duration n; velocity := velocity n |}.

Definition Note_with_pitch (n : Note) (p : Z) : Note :=
  {| pitch := p; startTime := startTime n; duration := duration n; velocity := velocity n |}.

(** Deep value equality of notes and of note sequences: equal fields, numbers
    compared as numbers. *)
Definition Note_equal (a b : Note) : Prop :=
  pitch a = pitch b ∧ (startTime a == startTime b)%Q ∧
  (duration a == duration b)%Q ∧ velocity a = velocity b.

Definition Notes_equal (xs ys : list Note) : Prop := Forall2 Note_equal xs ys.

(** ** The application shell: history and tempo *)

Module App.

(** [JSON.stringify(a) === JSON.stringify(b)] on note arrays.  Every note
    object is built with the same key order and a finite number prints by
    its value, so the two strings agree exactly when the arrays have the
    same length and pairwise equal fields; an absent [velocity] is omitted
    from the text. *)
Definition Z_option_eqb (a b : option Z) : bool :=
  match a, b with
  | Some x, Some y => x =? y
  | None, None => true
  | _, _ => false
  end.

Definition note_json_eqb (a b : Note) : bool :=
  (pitch a =? pitch b) && Qeq_bool (startTime a) (startTime b)
  && Qeq_bool (duration a) (duration b) && Z_option_eqb (velocity a) (velocity b).

Fixpoint json_eqb (xs ys : list Note) : bool :=
  match xs, ys with
  | [], [] => true
  | x :: xs', y :: ys' => note_json_eqb x y && json_eqb xs' ys'
  | _, _ => false
  end.

(** The part of the component state the history code touches: the live
    note store ([notes], written by [setNotes]), [historyRef.current] and
    [historyIndexRef.current]. *)
Record State : Type := mkState {
  notes : list Note;
  historyRef : list (list Note);
  historyIndexRef : Z
}.

(** [useState([])], [useRef([])], [useRef(-1)]. *)
Definition initial : State :=
  {| notes := []; historyRef := []; historyIndexRef := -1 |}.

Definition setNotes (ns : list Note) (s : State) : State :=
  {| notes := ns; historyRef := historyRef s; historyIndexRef := historyIndexRef s |}.

(** [pushHistory(newNotes)].  [JSON.parse(newStateStr)] is a deep copy,
    which is the same value here. *)
Definition pushHistory (newNotes : list Note) (s : State) : State :=
  let currentState := JS.index (historyRef s) (historyIndexRef s) in
  let duplicate :=
    match currentState with
    | Some cur => json_eqb cur newNotes
    | None => false
    end in
  if duplicate then s
  else
    let sliced := JS.slice0 (historyRef s) (historyIndexRef s + 1) in
    let pushed := sliced ++ [newNotes] in
    let idx := Z.of_nat (length pushed) - 1 in
    if 50 <? Z.of_nat (length pushed)
    then {| notes := notes s; historyRef := JS.shift pushed; historyIndexRef := idx - 1 |}
    else {| notes := notes s; historyRef := pushed; historyIndexRef := idx |}.

(** [undo()].  The cursor is decremented before the snapshot is read; if
    the read finds no entry the source's [JSON.parse] throws before
    [setNotes] runs, which leaves the notes as they were. *)
Definition undo (s : State) : State :=
  if 0 <? historyIndexRef s then
    let i := historyIndexRef s - 1 in
    match JS.index (historyRef s) i with
    | Some snap => {| notes := snap; historyRef := historyRef s; historyIndexRef := i |}
    | None => {| notes := notes s; historyRef := historyRef s; historyIndexRef := i |}
    end
  else s.

(** [redo()], with the same remark. *)
Definition redo (s : State) : State :=
  if historyIndexRef s <? Z.of_nat (length (historyRef s)) - 1 then
    let i := historyIndexRef s + 1 in
    match JS.index (historyRef s) i with
    | Some snap => {| notes := snap; historyRef := historyRef s; historyIndexRef := i |}
    | None => {| notes := notes s; historyRef := historyRef s; historyIndexRef := i |}
    end
  else s.

(** The history part of [loadMidi]: [allNotes] is the parsed, sorted note
    list; history is reset to that single snapshot. *)
Definition loadMidi (allNotes : list Note) (s : State) : State :=
  {| notes := allNotes; historyRef := [allNotes]; historyIndexRef := 0 |}.

(** [handleNotesChange(newNotes)]: a commit. *)
Definition handleNotesChange (newNotes : list Note) (s : State) : State :=
  setNotes newNotes (pushHistory newNotes s).

(** The operations a session applies to the history. *)
Inductive Op : Type :=
| OpLoad (allNotes : list Note)
| OpCommit (newNotes : list Note)
| OpUndo
| OpRedo.

Definition step (s : State) (o : Op) : State :=
  match o with
  | OpLoad ns => loadMidi ns s
  | OpCommit ns => handleNotesChange ns s
  | OpUndo => undo s
  | OpRedo => redo s
  end.

Definition run (ops : list Op) (s : State) : State := foldl step s ops.

Definition commits (cs : list (list Note)) (s : State) : State :=
  foldl (λ st c, handleNotesChange c st) s cs.

(** Each commit of the sequence differs from the snapshot that is current
    when it is made, so none is skipped as a duplicate. *)
Fixpoint no_duplicate_commit (cs : list (list Note)) (s : State) : Prop :=
  match cs with
  | [] => True
  | c :: rest =>
      (∀ cur, JS.index (historyRef s) (historyIndexRef s) = Some cur → json_eqb cur c = false)
      ∧ no_duplicate_commit rest (handleNotesChange c s)
  end.

(** The shape of the history: either nothing was ever recorded, or the
    cursor names an entry; and at most 50 entries are kept. *)
Definition cursor_valid (s : State) : Prop :=
  0 ≤ historyIndexRef s ≤ Z.of_nat (length (historyRef s)) - 1.

Definition never_recorded (s : State) : Prop :=
  historyRef s = [] ∧ historyIndexRef s = -1.

Definition bounded (s : State) : Prop := (length (historyRef s) ≤ 50)%nat.

(** The live notes are the snapshot under the cursor. *)
Definition synced (s : State) : Prop :=
  JS.index (historyRef s) (historyIndexRef s) = Some (notes s).

(** Whether an operation records a snapshot. *)
Definition records (o : Op) : bool :=
  match o with OpLoad _ | OpCommit _ => true | OpUndo | OpRedo => false end.

Definition history_shape (recorded : bool) (s : State) : Prop :=
  bounded s ∧ if recorded then cursor_valid s else never_recorded s.

(** *** Keyboard shortcuts of the shell *)

(** The fields of the key event the shell's [handleKeyDown] reads. *)
Record ShellKey : Type := mkShellKey {
  sk_key : string;
  sk_code : string;
  sk_ctrlKey : bool;
  sk_metaKey : bool;
  sk_shiftKey : bool
}.

(** The transport handler of the shell the space bar calls: [handlePlay]
    or [handlePause]. *)
Inductive TransportCmd : Type := CmdPlay | CmdPause.

(** [canPlay = notes.length > 0 && audioUrl]. *)
Definition canPlay (s : State) (audioUrl : bool) : bool :=
  (0 <? Z.of_nat (length (notes s))) && audioUrl.

(** The shell's [handleKeyDown]: undo, redo and the space bar.  The result
    is the new history state and the transport handler called, if any. *)
Definition handleKeyDown (audioUrl isPlaying : bool) (e : ShellKey) (s : State)
  : State * option TransportCmd :=
  if (sk_ctrlKey e || sk_metaKey e) && String.eqb (sk_key e) "z" && negb (sk_shiftKey e)
  then (undo s, None)
  else if (sk_ctrlKey e || sk_metaKey e)
          && (String.eqb (sk_key e) "Z" || String.eqb (sk_key e) "y")
  then (redo s, None)
  else if String.eqb (sk_code e) "Space" && canPlay s audioUrl
  then (s, Some (if isPlaying then CmdPause else CmdPlay))
  else (s, None).

(** *** MusicXML export *)

(** The export is modelled up to the text of the document: each measure is
    the list of elements its template strings print, in order. *)

Record XmlPitch : Type := mkXmlPitch {
  p_step : option string;
  p_alter : option Z;
  p_octave : Z
}.

Definition noteNames : list string :=
  ["C"; "C"; "D"; "D"; "E"; "F"; "F"; "G"; "G"; "A"; "A"; "B"]%string.

Definition alters : list Z := [0; 1; 0; 1; 0; 0; 1; 0; 1; 0; 1; 0].

(** [midiToPitch(midi)].  The remainder of a negative number is negative in
    JavaScript, which makes the table entries [undefined]. *)
Definition midiToPitch (midi : Z) : XmlPitch :=
  let noteIndex := Z.rem midi 12 in
  {| p_step := JS.index noteNames noteIndex;
     p_alter := JS.index alters noteIndex;
     p_octave := midi / 12 - 1 |}.

(** Ticks per quarter note, beats per bar. *)
Definition divisions : Z := 480.
Definition beatsPerBar : Z := 4.

(** [secondsToDivisions(secs)]. *)
Definition secondsToDivisions (secondsPerBeat secs : Q) : Z :=
  let beats := (secs / secondsPerBeat)%Q in
  JS.Math_round (beats * inject_Z divisions)%Q.

(** [[...notes].sort((a, b) => a.startTime - b.startTime)]: the sort is
    stable; it is written here as an insertion sort that places a note after
    the notes that start no later. *)
Fixpoint insertByStart (n : Note) (sorted : list Note) : list Note :=
  match sorted with
  | [] => [n]
  | m :: rest =>
      if Qle_bool (startTime m) (startTime n) then m :: insertByStart n rest
      else n :: m :: rest
  end.

Definition sortByStart (ns : list Note) : list Note :=
  foldl (λ acc n, insertByStart n acc) [] ns.

(** [Math.max(...notes.map(n => n.startTime + n.duration))] for a store
    that is not empty. *)
Definition endTime (ns : list Note) : Q :=
  match (λ n, (startTime n + duration n)%Q) <$> ns with
  | [] => 0%Q
  | e :: es => foldl JS.Math_max e es
  end.

Definition totalMeasures (tempoBpm offsetS : Q) (ns : list Note) : Z :=
  let secondsPerBeat := (60 / tempoBpm)%Q in
  let totalBeats := ((endTime ns - offsetS) / secondsPerBeat)%Q in
  Qceiling (totalBeats / inject_Z beatsPerBar)%Q + 1.

Definition measureStart (tempoBpm offsetS : Q) (m : Z) : Q :=
  (offsetS + inject_Z m * inject_Z beatsPerBar * (60 / tempoBpm))%Q.

Definition measureEnd (tempoBpm offsetS : Q) (m : Z) : Q :=
  (measureStart tempoBpm offsetS m + inject_Z beatsPerBar * (60 / tempoBpm))%Q.

(** The notes that start in measure [m]. *)
Definition measureNotes (tempoBpm offsetS : Q) (ns : list Note) (m : Z) : list Note :=
  List.filter
    (λ n, Qle_bool (measureStart tempoBpm offsetS m) (startTime n)
          && JS.Qltb (startTime n) (measureEnd tempoBpm offsetS m))
    (sortByStart ns).

(** The elements of a measure. *)
Inductive XmlElement : Type :=
| XmlAttributes (divs beats : Z) (perMinute : Q)
| XmlRest (restDuration : Z) (whole : bool)
| XmlNote (chord : bool) (p : XmlPitch) (noteDuration : Z).

(** [notesByTime]: a [Map] from the start time in milliseconds to the notes
    that start then, in insertion order. *)
Fixpoint mapPush (key : Z) (n : Note) (m : list (Z * list Note)) : list (Z * list Note) :=
  match m with
  | [] => [(key, [n])]
  | (k, group) :: rest =>
      if k =? key then (k, group ++ [n]) :: rest
      else (k, group) :: mapPush key n rest
  end.

Definition timeKey (n : Note) : Z := JS.Math_round (startTime n * 1000)%Q.

Definition notesByTime (ms : list Note) : list (Z * list Note) :=
  foldl (λ m n, mapPush (timeKey n) n m) [] ms.

Fixpoint mapGet (key : Z) (m : list (Z * list Note)) : option (list Note) :=
  match m with
  | [] => None
  | (k, group) :: rest => if k =? key then Some group else mapGet key rest
  end.

(** [keys.sort((a, b) => a - b)]. *)
Fixpoint insertKey (k : Z) (sorted : list Z) : list Z :=
  match sorted with
  | [] => [k]
  | j :: rest => if j <=? k then j :: insertKey k rest else k :: j :: rest
  end.

Definition sortKeys (ks : list Z) : list Z := foldl (λ acc k, insertKey k acc) [] ks.

(** The notes of one chord, the first plain and the others flagged. *)
Fixpoint chordElements (secondsPerBeat : Q) (chordNotes : list Note) (idx : nat)
  : list XmlElement :=
  match chordNotes with
  | [] => []
  | note :: rest =>
      XmlNote (0 <? idx)%nat (midiToPitch (pitch note))
              (secondsToDivisions secondsPerBeat (duration note))
      :: chordElements secondsPerBeat rest (S idx)
  end.

(** One round of [times.forEach]: the rest that fills the gap, the chord,
    and the division where the chord's first note ends.  The group of a
    key of the map is never empty. *)
Definition emitChord (secondsPerBeat mStart : Q) (groups : list (Z * list Note))
    (acc : list XmlElement * Z) (key : Z) : list XmlElement * Z :=
  match mapGet key groups with
  | Some (first :: others) =>
      let noteDivision := secondsToDivisions secondsPerBeat (startTime first - mStart)%Q in
      let gap :=
        if snd acc <? noteDivision then [XmlRest (noteDivision - snd acc) false] else [] in
      (fst acc ++ gap ++ chordElements secondsPerBeat (first :: others) 0,
       noteDivision + secondsToDivisions secondsPerBeat (duration first))
  | _ => acc
  end.

(** The content of measure [m]. *)
Definition measureContent (tempoBpm offsetS : Q) (ns : list Note) (m : Z) : list XmlElement :=
  let secondsPerBeat := (60 / tempoBpm)%Q in
  let header := if m =? 0 then [XmlAttributes divisions beatsPerBar tempoBpm] else [] in
  let ms := measureNotes tempoBpm offsetS ns m in
  match ms with
  | [] => header ++ [XmlRest (divisions * beatsPerBar) true]
  | _ =>
      let groups := notesByTime ms in
      let times := sortKeys (fst <$> groups) in
      header ++ fst (foldl (emitChord secondsPerBeat (measureStart tempoBpm offsetS m) groups)
                       ([], 0) times)
  end.

(** [exportMusicXML()]: nothing for an empty store, otherwise the numbered
    measures of the part. *)
Definition exportMusicXML (tempoBpm offsetS : Q) (ns : list Note)
  : option (list (Z * list XmlElement)) :=
  match ns with
  | [] => None
  | _ =>
      Some ((λ m, (m + 1, measureContent tempoBpm offsetS ns m))
              <$> seqZ 0 (totalMeasures tempoBpm offsetS ns))
  end.

(** The meaning of a step letter: its distance from C in semitones. *)
Definition stepSemitone (st : string) : option Z :=
  if String.eqb st "C" then Some 0
  else if String.eqb st "D" then Some 2
  else if String.eqb st "E" then Some 4
  else if String.eqb st "F" then Some 5
  else if String.eqb st "G" then Some 7
  else if String.eqb st "A" then Some 9
  else if String.eqb st "B" then Some 11
  else None.

(** The MIDI number a pitch element stands for. *)
Definition pitchToMidi (p : XmlPitch) : option Z :=
  match p_step p, p_alter p with
  | Some st, Some al =>
      match stepSemitone st with
      | Some base => Some (12 * (p_octave p + 1) + base + al)
      | None => None
      end
  | _, _ => None
  end.

(** Whether an element of a measure is a pitched note. *)
Definition isXmlNote (el : XmlElement) : bool :=
  match el with XmlNote _ _ _ => true | _ => false end.

(** The pitch and duration a note element carries. *)
Definition xmlNoteOf (el : XmlElement) : option (XmlPitch * Z) :=
  match el with XmlNote _ p d => Some (p, d) | _ => None end.

(** What the export writes for a note. *)
Definition exported (secondsPerBeat : Q) (n : Note) : XmlPitch * Z :=
  (midiToPitch (pitch n), secondsToDivisions secondsPerBeat (duration n)).

(** *** The notes shown in the notation panel *)

(** The effect that follows [activeNotes]: [displayNotes] is replaced only
    when some note is active. *)
Definition updateDisplayNotes (displayNotes activeNotes : list Z) : list Z :=
  if (0 <? Z.of_nat (length activeNotes)) then activeNotes else displayNotes.

(** [displayNotes] after the active sets of a run of frames. *)
Definition displayAfter (frames : list (list Z)) (displayNotes : list Z) : list Z :=
  foldl updateDisplayNotes displayNotes frames.

(** *** Tempo entry points *)

(** The BPM input's [onChange]: [setTempo(Math.max(1, Number(value)))];
    the argument is the number the field's text converts to, the result is
    the value stored. *)
Definition tempoInputOnChange (value : Q) : Q := JS.Math_max 1 value.

(** Tap tempo keeps its time stamps in an array object reached through
    [tapTimesRef.current].  Array objects live in a heap addressed by
    position, because the handler keeps a local alias [taps] of the array
    while it may rebind the ref to a fresh one. *)
Record TapState : Type := mkTapState {
  heap : list (list Z);
  tapTimesRef : nat;
  tempo : Q
}.

(** [useRef([])] and [useState(120)]. *)
Definition tapInitial : TapState :=
  {| heap := [[]]; tapTimesRef := 0%nat; tempo := 120 |}.

Definition deref (h : list (list Z)) (a : nat) : list Z := default [] (h !! a).

(** The argument of [setTempo] computed from the time stamps in [taps]
    (at least two of them).  [60000 / avgInterval] is [Infinity] when the
    average interval is zero, which [Math.round] and [Math.max(1, _)] keep
    and [Math.min(300, _)] turns into 300. *)
Definition tapBpm (taps : list Z) : Q :=
  let intervals := zip_with (λ prev cur, cur - prev) taps (tail taps) in
  let total := foldl Z.add 0 intervals in
  let avgInterval := (inject_Z total / inject_Z (Z.of_nat (length intervals)))%Q in
  if Qeq_bool avgInterval 0 then 300%Q
  else
    let bpm := JS.Math_round (60000 / avgInterval)%Q in
    JS.Math_min 300 (JS.Math_max 1 (inject_Z bpm)).

(** [handleTapTempo()] at clock reading [now]: the new state and the value
    passed to [setTempo], if it is called. *)
Definition handleTapTempo_call (now : Z) (s : TapState) : TapState * option Q :=
  (* const taps = tapTimesRef.current *)
  let taps := tapTimesRef s in
  let arr0 := deref (heap s) taps in
  let last := JS.index arr0 (Z.of_nat (length arr0) - 1) in
  let reset :=
    (0 <? Z.of_nat (length arr0)) &&
    match last with Some t => 2000 <? now - t | None => false end in
  (* tapTimesRef.current = [] : a new array, the local still names the old *)
  let heap1 := if reset then heap s ++ [[]] else heap s in
  let ref1 := if reset then length (heap s) else taps in
  (* taps.push(now) *)
  let arr1 := arr0 ++ [now] in
  (* if (taps.length > 8) taps.shift() *)
  let arr2 := if 8 <? Z.of_nat (length arr1) then JS.shift arr1 else arr1 in
  let heap2 := <[taps := arr2]> heap1 in
  (* if (taps.length >= 2) setTempo(...) *)
  if 2 <=? Z.of_nat (length arr2)
  then ({| heap := heap2; tapTimesRef := ref1; tempo := tapBpm arr2 |}, Some (tapBpm arr2))
  else ({| heap := heap2; tapTimesRef := ref1; tempo := tempo s |}, None).

Definition handleTapTempo (now : Z) (s : TapState) : TapState :=
  fst (handleTapTempo_call now s).

(** The tap sequence the next call of the handler will see. *)
Definition currentTaps (s : TapState) : list Z := deref (heap s) (tapTimesRef s).

(** The ref names an array of the heap that holds at most eight stamps. *)
Definition tap_wf (s : TapState) : Prop :=
  (tapTimesRef s < length (heap s))%nat ∧ (length (currentTaps s) ≤ 8)%nat.

(** A run of taps: the states after tapping at each time of [times] in
    turn, starting from [s]. *)
Definition tapAll (times : list Z) (s : TapState) : TapState :=
  foldl (λ st t, handleTapTempo t st) s times.

(** [n] time stamps starting at [t0], each [d] ms after the one before. *)
Fixpoint evenTaps (t0 d : Z) (n : nat) : list Z :=
  match n with
  | O => []
  | S n' => t0 :: evenTaps (t0 + d) d n'
  end.

(** The value [setTempo] receives for a steady beat of [d] ms. *)
Definition steadyBpm (d : Z) : Q :=
  JS.Math_min 300 (JS.Math_max 1 (inject_Z (JS.Math_round (60000 / inject_Z d)%Q))).

End App.

(** ** The roll component: grid editing, active notes, hit testing *)

Module PianoRoll.

Local Open Scope Q_scope.

(** [getSubdivisionBeats]: the subdivision name as a number of beats. *)
Definition getSubdivisionBeats (subdivision : string) : Q :=
  if String.eqb subdivision "1/1" then 4
  else if String.eqb subdivision "1/2" then 2
  else if String.eqb subdivision "1/4" then 1
  else if String.eqb subdivision "1/8" then 1 # 2
  else if String.eqb subdivision "1/8T" then 1 # 3
  else if String.eqb subdivision "1/16" then 1 # 4
  else if String.eqb subdivision "1/16T" then 1 # 6
  else if String.eqb subdivision "1/32" then 1 # 8
  else 1 # 2.

(** The props the editing code reads.  [onNotesChange] records whether the
    edit-notification callback was passed. *)
Record Props : Type := mkProps {
  notes : list Note;
  pixelsPerSecond : Q;
  tempo : Q;
  offset : Q;
  subdivision : string;
  onNotesChange : bool
}.

(** The displayed pitch range, computed from the notes with padding. *)
Definition minNotePitch (ns : list Note) : Z :=
  match pitch <$> ns with
  | [] => 60
  | p :: ps => foldl Z.min p ps
  end.

Definition maxNotePitch (ns : list Note) : Z :=
  match pitch <$> ns with
  | [] => 72
  | p :: ps => foldl Z.max p ps
  end.

(** [Math.max(21, Math.floor((minNotePitch - 2) / 12) * 12)]. *)
Definition minNote (ns : list Note) : Z :=
  Z.max 21 ((minNotePitch ns - 2) / 12 * 12)%Z.

(** [Math.min(108, Math.ceil((maxNotePitch + 2) / 12) * 12 + 11)]. *)
Definition maxNote (ns : list Note) : Z :=
  Z.min 108 (- ((- (maxNotePitch ns + 2)) / 12) * 12 + 11)%Z.

(** [NOTE_HEIGHT]: the row height, from the container height. *)
Definition NOTE_HEIGHT (ns : list Note) (containerHeight : Z) : Z :=
  let totalNotes := (maxNote ns - minNote ns + 1)%Z in
  let availableHeight := (containerHeight - 80 - 180 - 3)%Z in
  Z.max 4 (availableHeight / totalNotes)%Z.

(** *** Keyboard editing *)

Record KeyboardEvent : Type := mkKey {
  key : string;
  ctrlKey : bool;
  metaKey : bool
}.

Definition secondsPerSubdiv (pr : Props) : Q :=
  let secondsPerBeat := 60 / tempo pr in
  let subdivBeats := getSubdivisionBeats (subdivision pr) in
  secondsPerBeat * subdivBeats.

(** The body of the quantize loop for one note. *)
Definition quantizeNote (sps off : Q) (note : Note) : Note :=
  let gridPosition := JS.Math_round ((startTime note - off) / sps) in
  Note_with_startTime note (JS.Math_max 0 (off + inject_Z gridPosition * sps)).

(** The body of the ArrowLeft / ArrowRight loop for one note. *)
Definition nudgeNote (direction : Z) (sps off : Q) (note : Note) : Note :=
  let t1 := JS.Math_max 0 (startTime note + inject_Z direction * sps) in
  let gridPosition := JS.Math_round ((t1 - off) / sps) in
  Note_with_startTime note (off + inject_Z gridPosition * sps).

(** The body of the ArrowUp / ArrowDown loop for one note. *)
Definition nudgePitch (direction lo hi : Z) (note : Note) : Note :=
  Note_with_pitch note (Z.max lo (Z.min hi (pitch note + direction))).

(** [selectedNoteIndices.forEach(idx => { ...; newNotes[idx] = note })] on
    the copy [newNotes].  An index past the end of the array would make
    the source store an object without numeric fields there; that is
    outside the number model and the store is left as it is. *)
Definition forEachSelected (f : Note → Note) (sel : gset nat) (currentNotes : list Note)
  : list Note :=
  foldl (λ newNotes idx,
           match newNotes !! idx with
           | Some note => <[idx := f note]> newNotes
           | None => newNotes
           end) currentNotes (elements sel).

(** [currentNotes.filter((_, i) => !selectedNoteIndices.has(i))]. *)
Fixpoint filterUnselected_from (sel : gset nat) (ns : list Note) (i : nat) : list Note :=
  match ns with
  | [] => []
  | n :: rest =>
      if decide (i ∈ sel) then filterUnselected_from sel rest (S i)
      else n :: filterUnselected_from sel rest (S i)
  end.

Definition filterUnselected (sel : gset nat) (ns : list Note) : list Note :=
  filterUnselected_from sel ns 0.

(** [new Set(notes.map((_, i) => i))]. *)
Definition allIndices (ns : list Note) : gset nat :=
  list_to_set (seq 0 (length ns)).

(** What one key press does: the selection afterwards and the note arrays
    passed to [onNotesChange], in call order. *)
Record Outcome : Type := mkOutcome {
  selection : gset nat;
  emitted : list (list Note)
}.

Definition setSelectedNoteIndices (sel : gset nat) (o : Outcome) : Outcome :=
  {| selection := sel; emitted := emitted o |}.

Definition callOnNotesChange (ns : list Note) (o : Outcome) : Outcome :=
  {| selection := selection o; emitted := emitted o ++ [ns] |}.

Definition keyIs (e : KeyboardEvent) (k : string) : bool := String.eqb (key e) k.

(** [handleKeyDown(e)] with the current props and selection. *)
Definition handleKeyDown (pr : Props) (selectedNoteIndices : gset nat) (e : KeyboardEvent)
  : Outcome :=
  let o0 := {| selection := selectedNoteIndices; emitted := [] |} in
  if (size selectedNoteIndices =? 0)%nat || negb (onNotesChange pr) then o0
  else
    let sps := secondsPerSubdiv pr in
    let currentNotes := notes pr in
    if keyIs e "q" || keyIs e "Q" then
      callOnNotesChange
        (forEachSelected (quantizeNote sps (offset pr)) selectedNoteIndices currentNotes) o0
    else
      let o1 :=
        if keyIs e "ArrowLeft" || keyIs e "ArrowRight" then
          let direction := if keyIs e "ArrowLeft" then (-1)%Z else 1%Z in
          callOnNotesChange
            (forEachSelected (nudgeNote direction sps (offset pr))
               selectedNoteIndices currentNotes) o0
        else o0 in
      let o2 :=
        if keyIs e "ArrowUp" || keyIs e "ArrowDown" then
          let direction := if keyIs e "ArrowUp" then 1%Z else (-1)%Z in
          callOnNotesChange
            (forEachSelected
               (nudgePitch direction (minNote currentNotes) (maxNote currentNotes))
               selectedNoteIndices currentNotes) o1
        else o1 in
      let o3 :=
        if keyIs e "Delete" || keyIs e "Backspace" then
          callOnNotesChange (filterUnselected selectedNoteIndices currentNotes)
            (setSelectedNoteIndices ∅ o2)
        else o2 in
      let o4 := if keyIs e "Escape" then setSelectedNoteIndices ∅ o3 else o3 in
      if (ctrlKey e || metaKey e) && keyIs e "a"
      then setSelectedNoteIndices (allIndices currentNotes) o4
      else o4.

(** *** Active notes *)

(** The loop of [updatePlayhead] that collects the sounding pitches. *)
Definition activeNotesAt (elapsed : Q) (ns : list Note) : gset Z :=
  foldl (λ active note,
           if Qle_bool (startTime note) elapsed
              && JS.Qltb elapsed (startTime note + duration note)
           then {[pitch note]} ∪ active
           else active) ∅ ns.

(** The external transport as [updatePlayhead] reads it. *)
Record Transport : Type := mkTransport {
  getCurrentTime : Q;
  isPlaying : bool
}.

(** The view state [updatePlayhead] writes. *)
Record View : Type := mkView {
  currentTime : Q;
  playheadLeft : Q;
  scrollLeft : Q;
  clientWidth : Q;
  activeNotes : gset Z;
  frameRequested : bool
}.

(** [updatePlayhead()]: [refs] says whether the playhead and scroll
    elements are mounted, [ws] is the transport if there is one. *)
Definition updatePlayhead (pr : Props) (refs : bool) (ws : option Transport) (v : View) : View :=
  if negb refs then v
  else
    match ws with
    | None => v
    | Some w =>
        let elapsed := getCurrentTime w in
        let x := elapsed * pixelsPerSecond pr in
        let scroll :=
          if JS.Qltb (scrollLeft v + clientWidth v - 200) x then x - 200 else scrollLeft v in
        {| currentTime := elapsed;
           playheadLeft := x;
           scrollLeft := scroll;
           clientWidth := clientWidth v;
           activeNotes := activeNotesAt elapsed (notes pr);
           frameRequested := isPlaying w |}
    end.

(** *** Hit testing *)

(** The rendered rectangle of a note: left edge, top edge, width, height. *)
Definition noteX (pr : Props) (note : Note) : Q := startTime note * pixelsPerSecond pr.
Definition noteY (pr : Props) (containerHeight : Z) (note : Note) : Q :=
  inject_Z ((maxNote (notes pr) - pitch note) * NOTE_HEIGHT (notes pr) containerHeight).
Definition noteW (pr : Props) (note : Note) : Q :=
  JS.Math_max (duration note * pixelsPerSecond pr) 6.
Definition noteH (pr : Props) (containerHeight : Z) : Q :=
  inject_Z (NOTE_HEIGHT (notes pr) containerHeight - 1).

(** The predicate of [findNoteAtPosition]. *)
Definition hitsNote (pr : Props) (containerHeight : Z) (clickX clickY : Q) (note : Note) : bool :=
  if (pitch note <? minNote (notes pr))%Z || (maxNote (notes pr) <? pitch note)%Z then false
  else
    Qle_bool (noteX pr note) clickX
    && Qle_bool clickX (noteX pr note + noteW pr note)
    && Qle_bool (noteY pr containerHeight note) clickY
    && Qle_bool clickY (noteY pr containerHeight note + noteH pr containerHeight).

Definition findNoteAtPosition (pr : Props) (containerHeight : Z) (clickX clickY : Q) : Z :=
  JS.findIndex (hitsNote pr containerHeight clickX clickY) (notes pr).

(** *** Grid lines *)

(** [Math.abs], [Math.trunc] and the remainder operator [a % b] on
    numbers: the remainder takes the sign of the dividend. *)
Definition Math_abs (x : Q) : Q := if Qle_bool 0 x then x else - x.
Definition Math_trunc (x : Q) : Z := if JS.Qltb x 0 then Qceiling x else Qfloor x.
Definition jsRem (a b : Q) : Q := a - b * inject_Z (Math_trunc (a / b)).

(** [duration]: the end of the last note, 0 for an empty store. *)
Definition rollDuration (ns : list Note) : Q :=
  match (λ n, startTime n + duration n) <$> ns with
  | [] => 0
  | e :: es => foldl JS.Math_max e es
  end.

Inductive LineKind : Type := BarLine | BeatLine | SubdivisionLine.

(** A vertical grid line: the loop counter that drew it, its x position,
    its kind and the number printed next to it, if any. *)
Record GridLine : Type := mkGridLine {
  gl_subdiv : Z;
  gl_x : Q;
  gl_kind : LineKind;
  gl_label : option Z
}.

(** The body of the loop for a line that is drawn. *)
Definition gridLine (pr : Props) (subdiv : Z) : GridLine :=
  let subdivBeats := getSubdivisionBeats (subdivision pr) in
  let t := offset pr + inject_Z subdiv * secondsPerSubdiv pr in
  let beatNum := inject_Z subdiv * subdivBeats in
  let isBar := JS.Qltb (Math_abs (jsRem beatNum 4)) (1 # 1000) in
  let isBeat := JS.Qltb (Math_abs (jsRem beatNum 1)) (1 # 1000) in
  {| gl_subdiv := subdiv;
     gl_x := t * pixelsPerSecond pr;
     gl_kind := if isBar then BarLine else if isBeat then BeatLine else SubdivisionLine;
     gl_label :=
       if isBar then Some (Qfloor (beatNum / 4) + 1)%Z
       else if isBeat then Some (Qfloor (jsRem beatNum 4) + 1)%Z
       else None |}.

(** [for (let subdiv = start; ; subdiv++) { ... }]: the loop has no bound of
    its own; [fuel] bounds the number of rounds and [None] means the fuel
    ran out before the loop reached its [break]. *)
Fixpoint gridLoop (fuel : nat) (pr : Props) (subdiv : Z) : option (list GridLine) :=
  match fuel with
  | O => None
  | S fuel' =>
      let t := offset pr + inject_Z subdiv * secondsPerSubdiv pr in
      if JS.Qltb (rollDuration (notes pr) + 4) t then Some []
      else if JS.Qltb t 0 then gridLoop fuel' pr (subdiv + 1)
      else
        match gridLoop fuel' pr (subdiv + 1) with
        | Some rest => Some (gridLine pr subdiv :: rest)
        | None => None
        end
  end.

(** The grid lines of a render pass. *)
Definition gridLines (fuel : nat) (pr : Props) : option (list GridLine) :=
  let subdivsBeforeOffset := (Qceiling (offset pr / secondsPerSubdiv pr) + 1)%Z in
  gridLoop fuel pr (- subdivsBeforeOffset).

(** *** Keyboard layout *)

(** [isBlackKey(note)]. *)
Definition isBlackKey (note : Z) : bool :=
  let n := Z.rem note 12 in
  existsb (Z.eqb n) [1; 3; 6; 8; 10]%Z.

(** [countWhiteKeys(minNote, maxNote)]: the loop runs over the notes from
    [lo] to [hi], both included. *)
Definition countWhiteKeys (lo hi : Z) : Z :=
  foldl (λ count n, if isBlackKey n then count else (count + 1)%Z) 0%Z
        (seqZ lo (hi - lo + 1)).

(** *** Rectangle selection and the mouse handlers *)

(** The loop of [findNotesInRect] over the notes from position [index] on,
    with the box already normalised to its min and max corners. *)
Fixpoint findNotesInRect_from (pr : Props) (containerHeight : Z) (minX maxX minY maxY : Q)
    (ns : list Note) (index : nat) (selected : gset nat) : gset nat :=
  match ns with
  | [] => selected
  | note :: rest =>
      let selected' :=
        if (pitch note <? minNote (notes pr))%Z || (maxNote (notes pr) <? pitch note)%Z
        then selected
        else if Qle_bool minX (noteX pr note + noteW pr note)
                && Qle_bool (noteX pr note) maxX
                && Qle_bool minY (noteY pr containerHeight note + noteH pr containerHeight)
                && Qle_bool (noteY pr containerHeight note) maxY
             then {[index]} ∪ selected
             else selected in
      findNotesInRect_from pr containerHeight minX maxX minY maxY rest (S index) selected'
  end.

(** [findNotesInRect(x1, y1, x2, y2)]. *)
Definition findNotesInRect (pr : Props) (containerHeight : Z) (x1 y1 x2 y2 : Q) : gset nat :=
  let minX := JS.Math_min x1 x2 in
  let maxX := JS.Math_max x1 x2 in
  let minY := JS.Math_min y1 y2 in
  let maxY := JS.Math_max y1 y2 in
  findNotesInRect_from pr containerHeight minX maxX minY maxY (notes pr) 0 ∅.

Record Point : Type := mkPoint { px : Q; py : Q }.

(** The fields of a mouse event the handlers read, and the geometry of the
    scroll container: the bounding rectangle of the event target and, when
    the scroll element is mounted, its scroll offsets. *)
Record MouseEvent : Type := mkMouse {
  clientX : Q;
  clientY : Q;
  shiftKey : bool;
  m_ctrlKey : bool;
  m_metaKey : bool;
  rectLeft : Q;
  rectTop : Q;
  scrollRef : option (Q * Q)
}.

(** [getCanvasPosition(e)]; a missing element or a zero offset gives 0. *)
Definition getCanvasPosition (e : MouseEvent) : Point :=
  let scrollLeft := match scrollRef e with Some (l, _) => l | None => 0 end in
  let scrollTop := match scrollRef e with Some (_, t) => t | None => 0 end in
  {| px := clientX e - rectLeft e + scrollLeft;
     py := clientY e - rectTop e + scrollTop - 80 |}.

(** The pointer state of the component. *)
Record Pointer : Type := mkPointer {
  selectedNoteIndices : gset nat;
  dragStart : option Point;
  dragEnd : option Point;
  isDragging : bool
}.

(** [handleMouseDown(e)]: the new pointer state and the argument of
    [onOffsetChange] if it is called; [onOffsetChange] says whether that
    callback was passed.  [notes[clickedNoteIndex]] is read only for an
    index [findIndex] returned; were it missing the source would throw and
    leave the state as it is. *)
Definition handleMouseDown (pr : Props) (containerHeight : Z) (onOffsetChange : bool)
    (e : MouseEvent) (ui : Pointer) : Pointer * option Q :=
  let pos := getCanvasPosition e in
  let clickedNoteIndex := findNoteAtPosition pr containerHeight (px pos) (py pos) in
  if shiftKey e && onOffsetChange && negb (clickedNoteIndex =? -1)%Z then
    match JS.index (notes pr) clickedNoteIndex with
    | Some note => (ui, Some (startTime note))
    | None => (ui, None)
    end
  else if negb (clickedNoteIndex =? -1)%Z then
    let k := Z.to_nat clickedNoteIndex in
    if m_ctrlKey e || m_metaKey e then
      let newSelected :=
        if decide (k ∈ selectedNoteIndices ui)
        then selectedNoteIndices ui ∖ {[k]}
        else {[k]} ∪ selectedNoteIndices ui in
      ({| selectedNoteIndices := newSelected; dragStart := dragStart ui;
          dragEnd := dragEnd ui; isDragging := isDragging ui |}, None)
    else
      ({| selectedNoteIndices := {[k]}; dragStart := dragStart ui;
          dragEnd := dragEnd ui; isDragging := isDragging ui |}, None)
  else
    ({| selectedNoteIndices := selectedNoteIndices ui; dragStart := Some pos;
        dragEnd := Some pos; isDragging := true |}, None).

(** [handleMouseMove(e)]. *)
Definition handleMouseMove (e : MouseEvent) (ui : Pointer) : Pointer :=
  if negb (isDragging ui) || negb (bool_decide (is_Some (dragStart ui))) then ui
  else {| selectedNoteIndices := selectedNoteIndices ui; dragStart := dragStart ui;
          dragEnd := Some (getCanvasPosition e); isDragging := isDragging ui |}.

(** What a mouse release asks of the transport and the view. *)
Record SeekEffects : Type := mkSeek {
  seekTo : option Q;
  setCurrentTime : option Q;
  playheadLeftPx : option Q
}.

Definition noSeek : SeekEffects :=
  {| seekTo := None; setCurrentTime := None; playheadLeftPx := None |}.

(** [handleMouseUp(e)]: [ws] is the duration the transport reports, if a
    transport exists, and [playhead] says whether the playhead element is
    mounted. *)
Definition handleMouseUp (pr : Props) (containerHeight : Z) (ws : option Q) (playhead : bool)
    (ui : Pointer) : Pointer * SeekEffects :=
  let released sel :=
    {| selectedNoteIndices := sel; dragStart := None; dragEnd := None; isDragging := false |} in
  match isDragging ui, dragStart ui, dragEnd ui with
  | true, Some ds, Some de =>
      let selected := findNotesInRect pr containerHeight (px ds) (py ds) (px de) (py de) in
      if (0 <? size selected)%nat then (released selected, noSeek)
      else
        let clickTime := px ds / pixelsPerSecond pr in
        let effects :=
          match ws with
          | Some duration =>
              if JS.Qltb 0 duration then
                let seekRatio := JS.Math_max 0 (JS.Math_min 1 (clickTime / duration)) in
                {| seekTo := Some seekRatio;
                   setCurrentTime := Some clickTime;
                   playheadLeftPx :=
                     if playhead then Some (clickTime * pixelsPerSecond pr) else None |}
              else noSeek
          | None => noSeek
          end in
        (released ∅, effects)
  | _, _, _ => (released (selectedNoteIndices ui), noSeek)
  end.

(** *** Specification predicates *)

(** The interval test of the loop, as a proposition. *)
Definition sounding (elapsed : Q) (n : Note) : Prop :=
  startTime n <= elapsed ∧ elapsed < startTime n + duration n.

(** The rendered rectangle of a note contains the point. *)
Definition inRectangle (pr : Props) (containerHeight : Z) (clickX clickY : Q) (n : Note)
  : Prop :=
  noteX pr n <= clickX ∧ clickX <= noteX pr n + noteW pr n
  ∧ noteY pr containerHeight n <= clickY
  ∧ clickY <= noteY pr containerHeight n + noteH pr containerHeight.

(** The note lies in the displayed pitch range. *)
Definition displayed (pr : Props) (n : Note) : Prop :=
  (minNote (notes pr) ≤ pitch n ≤ maxNote (notes pr))%Z.

(** The rendered rectangle of a note meets the box with the given two
    corners. *)
Definition overlapsBox (pr : Props) (containerHeight : Z) (x1 y1 x2 y2 : Q) (n : Note) : Prop :=
  JS.Math_min x1 x2 <= noteX pr n + noteW pr n
  ∧ noteX pr n <= JS.Math_max x1 x2
  ∧ JS.Math_min y1 y2 <= noteY pr containerHeight n + noteH pr containerHeight
  ∧ noteY pr containerHeight n <= JS.Math_max y1 y2.

(** The test of the rectangle loop on one note. *)
Definition boxTest (pr : Props) (containerHeight : Z) (minX maxX minY maxY : Q) (n : Note)
  : Prop :=
  displayed pr n
  ∧ minX <= noteX pr n + noteW pr n ∧ noteX pr n <= maxX
  ∧ minY <= noteY pr containerHeight n + noteH pr containerHeight
  ∧ noteY pr containerHeight n <= maxY.


(** The time of grid point [k]. *)
Definition gridTime (pr : Props) (k : Z) : Q :=
  offset pr + inject_Z k * secondsPerSubdiv pr.

End PianoRoll.

(** ** The notation panel *)

Module Notation.

(** The two staves of [MusicNotation]: the active pitches from middle C up
    go to the treble staff, the others to the bass staff, each in ascending
    order ([sort((a, b) => a - b)]). *)
Definition trebleNotes (activeNotes : list Z) : list Z :=
  App.sortKeys (List.filter (λ n, 60 <=? n) activeNotes).

Definition bassNotes (activeNotes : list Z) : list Z :=
  App.sortKeys (List.filter (λ n, n <? 60) activeNotes).

End Notation.

(** * Properties *)

(** ** Numbers *)

Section Numbers.

Local Open Scope Q_scope.

Lemma Qle_bool_false (a b : Q) : Qle_bool a b = false → b < a.
Proof.
  intros H. apply Qnot_le_lt. intros Hle. apply Qle_bool_iff in Hle. congruence.
Qed.

Lemma Math_max_lower_l (a b : Q) : a <= JS.Math_max a b.
Proof.
  unfold JS.Math_max. destruct (Qle_bool a b) eqn:E.
  - by apply Qle_bool_iff.
  - apply Qle_refl.
Qed.

Lemma Math_min_upper_l (a b : Q) : JS.Math_min a b <= a.
Proof.
  unfold JS.Math_min. destruct (Qle_bool a b) eqn:E.
  - apply Qle_refl.
  - apply Qlt_le_weak. by apply Qle_bool_false.
Qed.

Lemma Math_min_lower (a b c : Q) : c <= a → c <= b → c <= JS.Math_min a b.
Proof. intros Ha Hb. unfold JS.Math_min. by destruct (Qle_bool a b). Qed.

Lemma Qltb_lt (a b : Q) : JS.Qltb a b = true ↔ a < b.
Proof.
  unfold JS.Qltb. rewrite negb_true_iff. split.
  - intros H. apply Qnot_le_lt. intros Hle. apply Qle_bool_iff in Hle. congruence.
  - intros H. destruct (Qle_bool b a) eqn:E; [|done].
    apply Qle_bool_iff in E. exfalso. by apply (Qlt_not_le a b).
Qed.

Lemma Math_round_comp (x y : Q) : x == y → JS.Math_round x = JS.Math_round y.
Proof. intros H. unfold JS.Math_round. apply Qfloor_comp. by rewrite H. Qed.

Lemma Math_round_mono (x y : Q) : x <= y → (JS.Math_round x ≤ JS.Math_round y)%Z.
Proof. intros H. unfold JS.Math_round. apply Qfloor_resp_le. lra. Qed.

(** Rounding an integer gives it back. *)
Lemma Math_round_inject_Z (k : Z) : JS.Math_round (inject_Z k) = k.
Proof.
  unfold JS.Math_round. set (m := Qfloor (inject_Z k + (1 # 2))).
  pose proof (Qfloor_le (inject_Z k + (1 # 2))) as Hlo.
  pose proof (Qlt_floor (inject_Z k + (1 # 2))) as Hhi. fold m in Hlo, Hhi.
  destruct (Z_lt_le_dec k m) as [Hlt | Hle].
  - assert (H : inject_Z (k + 1) <= inject_Z m) by (rewrite <- Zle_Qle; lia).
    rewrite inject_Z_plus in H. change (inject_Z 1) with 1 in H. lra.
  - destruct (Z_lt_le_dec m k) as [Hlt | Hge]; [|lia].
    assert (H : inject_Z (m + 1) <= inject_Z k) by (rewrite <- Zle_Qle; lia).
    lra.
Qed.

Lemma Qdiv_le_compat_r (x y z : Q) : 0 < z → x <= y → x / z <= y / z.
Proof.
  intros Hz Hxy. unfold Qdiv. apply Qmult_le_compat_r; [done|].
  apply Qlt_le_weak. by apply Qinv_lt_0_compat.
Qed.

End Numbers.

(** ** History *)

Section History.

Import App.

Implicit Types (s : State) (ns c cur : list Note) (cs : list (list Note)).

Lemma index_Some {A} (l : list A) (i : Z) (x : A) :
  JS.index l i = Some x ↔ 0 ≤ i ∧ l !! Z.to_nat i = Some x.
Proof.
  unfold JS.index. destruct (Z.ltb_spec i 0).
  - split; [done | intros [? _]; lia].
  - split; [by intros ? | by intros [_ ?]].
Qed.

Lemma index_lt {A} (l : list A) (i : Z) (x : A) :
  JS.index l i = Some x → 0 ≤ i < Z.of_nat (length l).
Proof.
  intros [Hi Hl]%index_Some. apply lookup_lt_Some in Hl. lia.
Qed.

Lemma index_is_Some {A} (l : list A) (i : Z) :
  0 ≤ i < Z.of_nat (length l) → is_Some (JS.index l i).
Proof.
  intros Hi. unfold JS.index. destruct (Z.ltb_spec i 0); [lia|].
  apply lookup_lt_is_Some. lia.
Qed.

Lemma Z_option_eqb_refl (o : option Z) : Z_option_eqb o o = true.
Proof. destruct o; simpl; [apply Z.eqb_refl | done]. Qed.

Lemma note_json_eqb_equal (a b : Note) : Note_equal a b → note_json_eqb a b = true.
Proof.
  intros (Hp & Hs & Hd & Hv). unfold note_json_eqb.
  rewrite Hp, Hv, Z.eqb_refl, Z_option_eqb_refl.
  apply Qeq_bool_iff in Hs, Hd. by rewrite Hs, Hd.
Qed.

Lemma json_eqb_equal (xs ys : list Note) : Notes_equal xs ys → json_eqb xs ys = true.
Proof.
  induction 1 as [|x y xs ys Hxy _ IH]; simpl; [done|].
  by rewrite (note_json_eqb_equal _ _ Hxy), IH.
Qed.

Lemma synced_cursor_valid s : synced s → cursor_valid s.
Proof. intros H%index_lt. unfold cursor_valid. lia. Qed.

Lemma slice0_take {A} (l : list A) (e : Z) :
  0 ≤ e → JS.slice0 l e = take (Z.to_nat e) l.
Proof. intros He. unfold JS.slice0. by destruct (Z.ltb_spec e 0); [lia|]. Qed.

(** What a push that is not skipped does. *)
Lemma pushHistory_fresh s c :
  (∀ cur, JS.index (historyRef s) (historyIndexRef s) = Some cur → json_eqb cur c = false) →
  -1 ≤ historyIndexRef s →
  let pushed := take (Z.to_nat (historyIndexRef s + 1)) (historyRef s) ++ [c] in
  pushHistory c s =
    if 50 <? Z.of_nat (length pushed)
    then {| notes := notes s; historyRef := tail pushed;
            historyIndexRef := Z.of_nat (length pushed) - 1 - 1 |}
    else {| notes := notes s; historyRef := pushed;
            historyIndexRef := Z.of_nat (length pushed) - 1 |}.
Proof.
  intros Hfresh Hidx. unfold pushHistory.
  destruct (JS.index (historyRef s) (historyIndexRef s)) as [cur|] eqn:Hcur.
  - rewrite (Hfresh cur eq_refl). by rewrite slice0_take by lia.
  - by rewrite slice0_take by lia.
Qed.

Lemma pushHistory_cases s c :
  pushHistory c s = s ∨
  (∀ cur, JS.index (historyRef s) (historyIndexRef s) = Some cur → json_eqb cur c = false).
Proof.
  unfold pushHistory.
  destruct (JS.index (historyRef s) (historyIndexRef s)) as [cur|]; [|right; done].
  destruct (json_eqb cur c) eqn:E; [by left|right]. by intros ? [= <-].
Qed.

Lemma tail_snoc_length {A} (l : list A) (x : A) :
  length (tail (l ++ [x])) = length l.
Proof. destruct l; simpl; [done|]. rewrite length_app. simpl. lia. Qed.

Lemma tail_snoc_last {A} (l : list A) (x : A) :
  l ≠ [] → tail (l ++ [x]) !! (length l - 1)%nat = Some x.
Proof.
  destruct l as [|y l]; [done|]. intros _. simpl.
  rewrite Nat.sub_0_r. by rewrite lookup_app_r, Nat.sub_diag.
Qed.

(** A push leaves a history whose cursor is valid and which holds at most
    50 entries, whatever valid or empty state it starts from. *)
Lemma pushHistory_invariant s c :
  bounded s → cursor_valid s ∨ never_recorded s →
  bounded (pushHistory c s) ∧ cursor_valid (pushHistory c s).
Proof.
  intros Hb [Hs | [Hh Hi]].
  - destruct (pushHistory_cases s c) as [-> | Hfresh]; [done|].
    rewrite pushHistory_fresh by (try done; unfold cursor_valid in Hs; lia).
    unfold bounded, cursor_valid in *.
    set (k := Z.to_nat (historyIndexRef s + 1)).
    assert (Hk : (k ≤ length (historyRef s))%nat) by lia.
    rewrite length_app, length_take_le by done. simpl.
    destruct (Z.ltb_spec 50 (Z.of_nat (k + 1))); simpl.
    + rewrite tail_snoc_length, length_take_le by done. lia.
    + rewrite length_app, length_take_le by done. simpl. lia.
  - (* an empty history has no current snapshot: the push is not skipped *)
    unfold pushHistory, bounded, cursor_valid. rewrite Hh, Hi. simpl. lia.
Qed.

Lemma undo_invariant s :
  bounded s → cursor_valid s → bounded (undo s) ∧ cursor_valid (undo s).
Proof.
  unfold bounded, cursor_valid, undo. intros Hb Hc.
  destruct (Z.ltb_spec 0 (historyIndexRef s)); [|done].
  destruct (JS.index _ _); simpl; lia.
Qed.

Lemma redo_invariant s :
  bounded s → cursor_valid s → bounded (redo s) ∧ cursor_valid (redo s).
Proof.
  unfold bounded, cursor_valid, redo. intros Hb Hc.
  destruct (Z.ltb_spec (historyIndexRef s) (Z.of_nat (length (historyRef s)) - 1)); [|done].
  destruct (JS.index _ _); simpl; lia.
Qed.

Lemma undo_never_recorded s : never_recorded s → undo s = s.
Proof. intros [_ Hi]. unfold undo. by rewrite Hi. Qed.

Lemma redo_never_recorded s : never_recorded s → redo s = s.
Proof. intros [Hh Hi]. unfold redo. by rewrite Hh, Hi. Qed.

Lemma step_shape (b : bool) s (o : Op) :
  history_shape b s → history_shape (b || records o) (step s o).
Proof.
  intros [Hb Hs]. destruct o as [ns|ns| |]; simpl.
  - rewrite orb_true_r. split; unfold bounded, cursor_valid; simpl; lia.
  - rewrite orb_true_r. unfold handleNotesChange.
    assert (Hs' : cursor_valid s ∨ never_recorded s) by (destruct b; auto).
    destruct (pushHistory_invariant s ns Hb Hs') as [H1 H2]. by split.
  - rewrite orb_false_r. destruct b.
    + by apply undo_invariant.
    + by rewrite undo_never_recorded.
  - rewrite orb_false_r. destruct b.
    + by apply redo_invariant.
    + by rewrite redo_never_recorded.
Qed.

Lemma run_shape (ops : list Op) : ∀ (b : bool) s,
  history_shape b s → history_shape (b || existsb records ops) (run ops s).
Proof.
  induction ops as [|o ops IH]; intros b s H; simpl.
  - by rewrite orb_false_r.
  - rewrite orb_assoc. apply IH. by apply step_shape.
Qed.

Lemma initial_shape : history_shape false initial.
Proof. split; [unfold bounded; simpl; lia | done]. Qed.

Lemma reachable_shape (ops : list Op) :
  bounded (run ops initial)
  ∧ (cursor_valid (run ops initial) ∨ never_recorded (run ops initial)).
Proof.
  destruct (run_shape ops false initial initial_shape) as [Hb Hs].
  split; [done|]. destruct (false || existsb records ops); auto.
Qed.

(** When the history is full and the cursor is at its end, a new snapshot
    evicts the oldest entry and the cursor stays on the last index. *)
Lemma pushHistory_evicts s c :
  length (historyRef s) = 50%nat → historyIndexRef s = 49 →
  (∀ cur, JS.index (historyRef s) (historyIndexRef s) = Some cur → json_eqb cur c = false) →
  historyRef (pushHistory c s) = tail (historyRef s) ++ [c]
  ∧ historyIndexRef (pushHistory c s) = 49.
Proof.
  intros Hlen Hidx Hfresh. rewrite pushHistory_fresh by (try done; lia).
  rewrite Hidx. change (Z.to_nat (49 + 1)) with 50%nat.
  rewrite <- Hlen, firstn_all, length_app, Hlen. simpl.
  split; [|done]. destruct (historyRef s); [done|]. done.
Qed.

Lemma commit_fresh_synced s c :
  cursor_valid s ∨ never_recorded s →
  (∀ cur, JS.index (historyRef s) (historyIndexRef s) = Some cur → json_eqb cur c = false) →
  synced (handleNotesChange c s)
  ∧ historyIndexRef (handleNotesChange c s)
    = Z.of_nat (length (historyRef (handleNotesChange c s))) - 1.
Proof.
  intros Hs Hfresh. unfold handleNotesChange, synced.
  assert (Hidx : -1 ≤ historyIndexRef s ∧
                 (Z.to_nat (historyIndexRef s + 1) ≤ length (historyRef s))%nat).
  { destruct Hs as [Hs | [Hh Hi]]; [unfold cursor_valid in Hs; lia|].
    rewrite Hi. simpl. lia. }
  rewrite pushHistory_fresh by (try done; lia).
  set (l := take (Z.to_nat (historyIndexRef s + 1)) (historyRef s)).
  rewrite length_app. simpl.
  destruct (Z.ltb_spec 50 (Z.of_nat (length l + 1))); simpl.
  - rewrite tail_snoc_length. split; [|lia].
    apply index_Some. split; [lia|].
    replace (Z.to_nat (Z.of_nat (length l + 1) - 1 - 1)) with (length l - 1)%nat by lia.
    apply tail_snoc_last. intros El. rewrite El in *. simpl in *. lia.
  - rewrite length_app. simpl. split; [|lia].
    apply index_Some. split; [lia|].
    replace (Z.to_nat (Z.of_nat (length l + 1) - 1)) with (length l) by lia.
    by rewrite lookup_app_r, Nat.sub_diag.
Qed.

Lemma commits_cons cs c s : commits (c :: cs) s = commits cs (handleNotesChange c s).
Proof. done. Qed.

Lemma handleNotesChange_invariant s c :
  bounded s → cursor_valid s ∨ never_recorded s →
  bounded (handleNotesChange c s) ∧ cursor_valid (handleNotesChange c s).
Proof. intros Hb Hs. by apply pushHistory_invariant. Qed.

(** After a run of commits none of which was skipped, the cursor is on the
    last entry and that entry is the live note sequence. *)
Lemma commits_synced cs : ∀ s,
  bounded s → cursor_valid s ∨ never_recorded s →
  no_duplicate_commit cs s → cs ≠ [] →
  synced (commits cs s)
  ∧ historyIndexRef (commits cs s) = Z.of_nat (length (historyRef (commits cs s))) - 1.
Proof.
  induction cs as [|c cs IH]; intros s Hb Hs Hnd Hne; [done|].
  destruct Hnd as [Hfresh Hrest]. rewrite commits_cons.
  destruct cs as [|c' cs'].
  - by apply commit_fresh_synced.
  - destruct (handleNotesChange_invariant s c Hb Hs) as [Hb' Hc'].
    apply IH; auto.
Qed.

Lemma commits_notes cs : ∀ s, notes (commits cs s) = default (notes s) (last cs).
Proof.
  induction cs as [|c cs IH]; intros s; [done|].
  rewrite commits_cons, IH, last_cons. by destruct (last cs).
Qed.

Lemma undo_synced s :
  synced s →
  synced (undo s) ∧ historyRef (undo s) = historyRef s
  ∧ historyIndexRef (undo s) = Z.max 0 (historyIndexRef s - 1).
Proof.
  intros Hs. pose proof (index_lt _ _ _ Hs) as Hi. unfold undo.
  destruct (Z.ltb_spec 0 (historyIndexRef s)); [|repeat split; [done | lia]].
  destruct (index_is_Some (historyRef s) (historyIndexRef s - 1)) as [snap Hsnap]; [lia|].
  rewrite Hsnap. unfold synced. simpl. repeat split; [done | lia].
Qed.

Lemma redo_synced s :
  synced s →
  synced (redo s) ∧ historyRef (redo s) = historyRef s
  ∧ historyIndexRef (redo s)
    = Z.min (Z.of_nat (length (historyRef s)) - 1) (historyIndexRef s + 1).
Proof.
  intros Hs. pose proof (index_lt _ _ _ Hs) as Hi. unfold redo.
  destruct (Z.ltb_spec (historyIndexRef s) (Z.of_nat (length (historyRef s)) - 1));
    [|repeat split; [done | lia]].
  destruct (index_is_Some (historyRef s) (historyIndexRef s + 1)) as [snap Hsnap]; [lia|].
  rewrite Hsnap. unfold synced. simpl. repeat split; [done | lia].
Qed.

Lemma iter_undo_synced (n : nat) s :
  synced s →
  synced (Nat.iter n undo s) ∧ historyRef (Nat.iter n undo s) = historyRef s
  ∧ historyIndexRef (Nat.iter n undo s) = Z.max 0 (historyIndexRef s - Z.of_nat n).
Proof.
  intros Hs. pose proof (index_lt _ _ _ Hs) as Hi.
  induction n as [|n (IH1 & IH2 & IH3)]; simpl.
  - repeat split; [done | lia].
  - destruct (undo_synced _ IH1) as (H1 & H2 & H3).
    repeat split; [done | congruence | lia].
Qed.

Lemma iter_redo_synced (n : nat) s :
  synced s →
  synced (Nat.iter n redo s) ∧ historyRef (Nat.iter n redo s) = historyRef s
  ∧ historyIndexRef (Nat.iter n redo s)
    = Z.min (Z.of_nat (length (historyRef s)) - 1) (historyIndexRef s + Z.of_nat n).
Proof.
  intros Hs. pose proof (index_lt _ _ _ Hs) as Hi.
  induction n as [|n (IH1 & IH2 & IH3)]; simpl.
  - repeat split; [done | lia].
  - destruct (redo_synced _ IH1) as (H1 & H2 & H3).
    repeat split; [done | congruence | rewrite H3, IH2, IH3; lia].
Qed.

(** A synced state is determined by its history and cursor. *)
Lemma synced_eq s1 s2 :
  synced s1 → synced s2 → historyRef s1 = historyRef s2 →
  historyIndexRef s1 = historyIndexRef s2 → s1 = s2.
Proof.
  unfold synced. destruct s1, s2; simpl. intros H1 H2 -> ->. congruence.
Qed.

(** C5. Duplicate suppression: pushing a snapshot that is deep-value-equal
    to the snapshot at the history cursor changes nothing; the history does
    not grow and the cursor does not move. *)
Theorem pushHistory_duplicate_noop s cur c :
  JS.index (historyRef s) (historyIndexRef s) = Some cur →
  Notes_equal cur c →
  pushHistory c s = s
  ∧ length (historyRef (pushHistory c s)) = length (historyRef s)
  ∧ historyIndexRef (pushHistory c s) = historyIndexRef s.
Proof.
  intros Hcur Heq.
  assert (E : pushHistory c s = s).
  { unfold pushHistory. by rewrite Hcur, (json_eqb_equal _ _ Heq). }
  by rewrite E.
Qed.

Lemma pushHistory_duplicate_noop_witness :
  let s := loadMidi [mkNote 60 (1 # 2) 1 (Some 100)] initial in
  let c := [mkNote 60 (2 # 4) (3 # 3) (Some 100)] in
  pushHistory c s = s
  ∧ length (historyRef (pushHistory c s)) = length (historyRef s)
  ∧ historyIndexRef (pushHistory c s) = historyIndexRef s.
Proof.
  intros s c.
  apply (pushHistory_duplicate_noop s [mkNote 60 (1 # 2) 1 (Some 100)] c).
  - reflexivity.
  - repeat constructor.
Defined.

(** C6, as the code has it. Starting from the initial state, after every
    sequence of load, commit, undo and redo operations the history holds at
    most 50 entries; the cursor is a valid index in [0, length-1] as soon as
    the sequence contains a load or a commit, and until then the history is
    empty with the cursor at -1. *)
Theorem history_invariant_reachable (ops : list Op) :
  (length (historyRef (run ops initial)) ≤ 50)%nat
  ∧ if existsb records ops
    then 0 ≤ historyIndexRef (run ops initial)
             ≤ Z.of_nat (length (historyRef (run ops initial))) - 1
    else historyRef (run ops initial) = [] ∧ historyIndexRef (run ops initial) = -1.
Proof.
  exact (run_shape ops false initial initial_shape).
Qed.

(** C6 as stated fails before anything is recorded: an undo (or redo) in
    the initial state leaves the cursor at -1, which is not an index of the
    empty history. *)
Lemma history_cursor_invalid_before_record :
  historyRef (run [OpUndo] initial) = []
  ∧ historyIndexRef (run [OpUndo] initial) = -1
  ∧ ¬ (0 ≤ historyIndexRef (run [OpUndo] initial)
         ≤ Z.of_nat (length (historyRef (run [OpUndo] initial))) - 1).
Proof. simpl. repeat split. lia. Qed.

(** C1. History round trip: in the state reached by any session followed by
    n commits, none of them skipped as a duplicate, n undos followed by n
    redos give back exactly that state, whose note sequence is the last
    commit. *)
Theorem history_round_trip (ops : list Op) cs :
  no_duplicate_commit cs (run ops initial) →
  Nat.iter (length cs) redo (Nat.iter (length cs) undo (commits cs (run ops initial)))
    = commits cs (run ops initial)
  ∧ notes (Nat.iter (length cs) redo (Nat.iter (length cs) undo (commits cs (run ops initial))))
    = default (notes (run ops initial)) (last cs).
Proof.
  intros Hnd.
  assert (E : Nat.iter (length cs) redo
                (Nat.iter (length cs) undo (commits cs (run ops initial)))
              = commits cs (run ops initial)).
  { destruct (decide (cs = [])) as [-> | Hne]; [done|].
    destruct (reachable_shape ops) as [Hb Hs].
    destruct (commits_synced cs _ Hb Hs Hnd Hne) as [Hsync Hend].
    set (s := commits cs (run ops initial)) in *.
    destruct (iter_undo_synced (length cs) s Hsync) as (Hu1 & Hu2 & Hu3).
    destruct (iter_redo_synced (length cs) _ Hu1) as (Hr1 & Hr2 & Hr3).
    pose proof (index_lt _ _ _ Hsync) as Hi.
    apply synced_eq; [done | done | congruence |].
    rewrite Hr3, Hu2, Hu3. lia. }
  split; [done|]. rewrite E. apply commits_notes.
Qed.

Lemma history_round_trip_witness :
  let ops := [OpLoad [mkNote 60 0 1 None]] in
  let cs := [[mkNote 60 (1 # 2) 1 None]; [mkNote 62 (1 # 2) 1 None]] in
  Nat.iter 2 redo (Nat.iter 2 undo (commits cs (run ops initial)))
    = commits cs (run ops initial)
  ∧ notes (Nat.iter 2 redo (Nat.iter 2 undo (commits cs (run ops initial))))
    = [mkNote 62 (1 # 2) 1 None].
Proof.
  intros ops cs. apply (history_round_trip ops cs).
  simpl. repeat split; intros cur [= <-]; reflexivity.
Defined.

End History.

(** ** Tempo entry *)

Section Tempo.

Import App.

Local Open Scope Q_scope.

(** The manual input enforces the lower bound. *)
Lemma tempoInputOnChange_lower (value : Q) : 1 <= tempoInputOnChange value.
Proof. apply Math_max_lower_l. Qed.

(** A value the manual input stores is the typed value whenever that is at
    least 1: there is no upper clamp on this path. *)
Lemma tempoInputOnChange_id (value : Q) : 1 <= value → tempoInputOnChange value = value.
Proof.
  intros H. unfold tempoInputOnChange, JS.Math_max.
  apply Qle_bool_iff in H. by rewrite H.
Qed.

(** The tap-tempo path clamps into [1, 300]. *)
Lemma tapBpm_range (taps : list Z) : 1 <= tapBpm taps ∧ tapBpm taps <= 300.
Proof.
  unfold tapBpm. destruct (Qeq_bool _ 0); [split; discriminate|].
  split.
  - apply Math_min_lower; [discriminate | apply Math_max_lower_l].
  - apply Math_min_upper_l.
Qed.

Lemma handleTapTempo_call_range (now : Z) (s : TapState) (bpm : Q) :
  snd (handleTapTempo_call now s) = Some bpm → 1 <= bpm ∧ bpm <= 300.
Proof.
  unfold handleTapTempo_call.
  destruct (2 <=? _)%Z; simpl; [|done]. intros [= <-]. apply tapBpm_range.
Qed.

(** C7, the manual entry point at 500: the stored tempo is 500, above the
    range [1, 300] that the tap-tempo path and the field's own [max]
    attribute announce. *)
Theorem tempo_input_accepts_500 :
  tempoInputOnChange 500 = 500 ∧ ¬ (tempoInputOnChange 500 <= 300).
Proof. split; [reflexivity | intros H; by vm_compute in H]. Qed.

End Tempo.

Section TapTempo.

Import App.

Implicit Types (s : TapState) (now : Z).

Lemma index_last (arr : list Z) : JS.index arr (Z.of_nat (length arr) - 1) = last arr.
Proof.
  unfold JS.index. destruct arr as [|x arr]; [done|].
  destruct (Z.ltb_spec (Z.of_nat (length (x :: arr)) - 1) 0); [simpl in *; lia|].
  rewrite last_lookup. f_equal. simpl. lia.
Qed.

(** A tap that comes more than 2000 ms after the last recorded one rebinds
    the ref to a fresh empty array, and the new time stamp goes to the old
    array. *)
Lemma handleTapTempo_reset s now (old : list Z) (prev : Z) :
  heap s !! tapTimesRef s = Some old → last old = Some prev → 2000 < now - prev →
  tapTimesRef (handleTapTempo now s) = length (heap s)
  ∧ heap (handleTapTempo now s) !! length (heap s) = Some []
  ∧ heap (handleTapTempo now s) !! tapTimesRef s
    = Some (if 8 <? Z.of_nat (length (old ++ [now])) then tail (old ++ [now]) else old ++ [now]).
Proof.
  intros Hold Hlast Hgap. pose proof (lookup_lt_Some _ _ _ Hold) as Hlt.
  unfold handleTapTempo, handleTapTempo_call, deref. rewrite Hold. simpl.
  rewrite index_last, Hlast.
  assert (Hne : (0 <? Z.of_nat (length old)) = true).
  { apply Z.ltb_lt. destruct old; [done|simpl; lia]. }
  assert (Hg : (2000 <? now - prev) = true) by by apply Z.ltb_lt.
  rewrite Hne, Hg. simpl.
  destruct (2 <=? _); simpl.
  - repeat split.
    + rewrite list_lookup_insert_ne by lia. by rewrite lookup_app_r, Nat.sub_diag.
    + apply list_lookup_insert_eq. rewrite length_app. simpl. lia.
  - repeat split.
    + rewrite list_lookup_insert_ne by lia. by rewrite lookup_app_r, Nat.sub_diag.
    + apply list_lookup_insert_eq. rewrite length_app. simpl. lia.
Qed.

(** The resetting call itself still calls [setTempo]: the local array has
    the old time stamps and the new one, at least two entries. *)
Lemma handleTapTempo_reset_updates s now (old : list Z) (prev : Z) :
  heap s !! tapTimesRef s = Some old → last old = Some prev →
  is_Some (snd (handleTapTempo_call now s)).
Proof.
  intros Hold Hlast. unfold handleTapTempo_call, deref. rewrite Hold. simpl.
  destruct old as [|x old]; [done|].
  assert (Hlen : (2 <=? Z.of_nat
                    (length (if 8 <? Z.of_nat (length ((x :: old) ++ [now]))
                             then JS.shift ((x :: old) ++ [now])
                             else (x :: old) ++ [now]))) = true).
  { apply Z.leb_le. destruct (Z.ltb_spec 8 (Z.of_nat (length ((x :: old) ++ [now])))) as [H|H].
    - unfold JS.shift. rewrite tail_snoc_length. rewrite length_app in H. simpl in *. lia.
    - rewrite length_app. simpl. lia. }
  rewrite Hlen. by eexists.
Qed.

(** A tap on an empty sequence records the tap and does not call
    [setTempo]. *)
Lemma handleTapTempo_first s now :
  heap s !! tapTimesRef s = Some [] →
  snd (handleTapTempo_call now s) = None
  ∧ tempo (handleTapTempo now s) = tempo s
  ∧ tapTimesRef (handleTapTempo now s) = tapTimesRef s
  ∧ heap (handleTapTempo now s) !! tapTimesRef s = Some [now].
Proof.
  intros He. pose proof (lookup_lt_Some _ _ _ He) as Hlt.
  unfold handleTapTempo, handleTapTempo_call, deref. rewrite He. simpl.
  repeat split. by apply list_lookup_insert_eq.
Qed.

(** A tap on a one-element sequence always calls [setTempo], whether or not
    the gap resets the ref. *)
Lemma handleTapTempo_second s now (t : Z) :
  heap s !! tapTimesRef s = Some [t] →
  snd (handleTapTempo_call now s) = Some (tapBpm [t; now]).
Proof.
  intros He. unfold handleTapTempo_call, deref. rewrite He. simpl.
  by destruct (2000 <? now - t)%Z.
Qed.

(** C10. A tap more than 2000 ms after the previous one leaves the ref on a
    new empty sequence: the earlier taps are gone and the triggering tap
    itself was pushed onto the old array, not the new one.  The next tap
    therefore does not update the tempo, and the one after it does. *)
Theorem tap_reset_loses_trigger s now (old : list Z) (prev t1 t2 : Z) :
  heap s !! tapTimesRef s = Some old → last old = Some prev → 2000 < now - prev →
  currentTaps (handleTapTempo now s) = []
  ∧ tapTimesRef (handleTapTempo now s) ≠ tapTimesRef s
  ∧ now ∈ deref (heap (handleTapTempo now s)) (tapTimesRef s)
  ∧ snd (handleTapTempo_call t1 (handleTapTempo now s)) = None
  ∧ tempo (handleTapTempo t1 (handleTapTempo now s)) = tempo (handleTapTempo now s)
  ∧ is_Some (snd (handleTapTempo_call t2 (handleTapTempo t1 (handleTapTempo now s)))).
Proof.
  intros Hold Hlast Hgap. pose proof (lookup_lt_Some _ _ _ Hold) as Hlt.
  destruct (handleTapTempo_reset s now old prev Hold Hlast Hgap) as (Href & Hnew & Holdarr).
  set (s1 := handleTapTempo now s) in *.
  assert (Hcur : heap s1 !! tapTimesRef s1 = Some []) by by rewrite Href.
  destruct (handleTapTempo_first s1 t1 Hcur) as (Hnone & Htempo & Href2 & Harr2).
  split; [unfold currentTaps, deref; by rewrite Hcur|].
  split; [rewrite Href; lia|].
  split.
  { unfold deref. rewrite Holdarr. simpl.
    destruct old as [|x old]; [done|].
    destruct (8 <? _); simpl; set_solver. }
  split; [done|]. split; [done|].
  rewrite <- Href2 in Harr2.
  rewrite (handleTapTempo_second _ t2 t1 Harr2). by eexists.
Qed.

Lemma tap_reset_loses_trigger_witness :
  let s := handleTapTempo 500 (handleTapTempo 0 tapInitial) in
  currentTaps (handleTapTempo 2600 s) = []
  ∧ tapTimesRef (handleTapTempo 2600 s) ≠ tapTimesRef s
  ∧ 2600 ∈ deref (heap (handleTapTempo 2600 s)) (tapTimesRef s)
  ∧ snd (handleTapTempo_call 3000 (handleTapTempo 2600 s)) = None
  ∧ tempo (handleTapTempo 3000 (handleTapTempo 2600 s)) = tempo (handleTapTempo 2600 s)
  ∧ is_Some (snd (handleTapTempo_call 3500 (handleTapTempo 3000 (handleTapTempo 2600 s)))).
Proof.
  intros s.
  apply (tap_reset_loses_trigger s 2600 [0; 500] 500 3000 3500); [reflexivity | reflexivity | lia].
Defined.

End TapTempo.

(** ** Active notes *)

Section ActiveNotes.

Import PianoRoll.

Local Open Scope Q_scope.

Lemma sounding_test (elapsed : Q) (n : Note) :
  Qle_bool (startTime n) elapsed && JS.Qltb elapsed (startTime n + duration n) = true
  ↔ sounding elapsed n.
Proof. unfold sounding. by rewrite andb_true_iff, Qle_bool_iff, Qltb_lt. Qed.

Lemma activeNotesAt_fold (elapsed : Q) (ns : list Note) : ∀ (acc : gset Z) (p : Z),
  p ∈ foldl (λ active note,
               if Qle_bool (startTime note) elapsed
                  && JS.Qltb elapsed (startTime note + duration note)
               then {[pitch note]} ∪ active
               else active) acc ns
  ↔ p ∈ acc ∨ ∃ n, n ∈ ns ∧ pitch n = p ∧ sounding elapsed n.
Proof.
  induction ns as [|n ns IH]; intros acc p; simpl.
  - split; [auto | intros [H | (n & Hn & _)]; [done | by apply elem_of_nil in Hn]].
  - rewrite IH. clear IH.
    destruct (Qle_bool (startTime n) elapsed
              && JS.Qltb elapsed (startTime n + duration n)) eqn:E.
    + apply sounding_test in E. rewrite elem_of_union, elem_of_singleton. split.
      * intros [[-> | H] | (m & Hm & Hp & Hs)]; [right | by left | right].
        -- exists n. split; [by left | done].
        -- exists m. split; [by right | done].
      * intros [H | (m & Hm & Hp & Hs)]; [by left; right|].
        apply elem_of_cons in Hm as [-> | Hm]; [by left; left|].
        right. by exists m.
    + split.
      * intros [H | (m & Hm & Hp & Hs)]; [by left | right].
        exists m. split; [by right | done].
      * intros [H | (m & Hm & Hp & Hs)]; [by left|].
        apply elem_of_cons in Hm as [-> | Hm].
        -- apply sounding_test in Hs. congruence.
        -- right. by exists m.
Qed.

(** C4. The active set is exactly the set of pitches of the notes whose
    half-open interval [startTime, startTime + duration) contains the
    current time, and [updatePlayhead] stores that set each frame; a note
    starting at 2.0 with duration 1.0 is active at 2.0 and 2.99 and inactive
    at 1.99 and 3.0. *)
Theorem activeNotes_half_open :
  (∀ (elapsed : Q) (ns : list Note) (p : Z),
      p ∈ activeNotesAt elapsed ns
      ↔ ∃ n, n ∈ ns ∧ pitch n = p
             ∧ startTime n <= elapsed ∧ elapsed < startTime n + duration n)
  ∧ (∀ (pr : Props) (w : Transport) (v : View),
        activeNotes (updatePlayhead pr true (Some w) v)
        = activeNotesAt (getCurrentTime w) (notes pr))
  ∧ (∀ (p : Z) (vel : option Z),
        p ∈ activeNotesAt 2 [mkNote p 2 1 vel]
        ∧ p ∈ activeNotesAt (299 # 100) [mkNote p 2 1 vel]
        ∧ (p ∉ activeNotesAt (199 # 100) [mkNote p 2 1 vel])
        ∧ (p ∉ activeNotesAt 3 [mkNote p 2 1 vel])).
Proof.
  split; [|split].
  - intros elapsed ns p. unfold activeNotesAt. rewrite activeNotesAt_fold.
    split; [intros [H | H]; [by apply not_elem_of_empty in H | done] | auto].
  - done.
  - intros p vel. unfold activeNotesAt. simpl. set_solver.
Qed.

End ActiveNotes.

(** ** Hit testing *)

Section HitTest.

Import PianoRoll.

Local Open Scope Q_scope.

Lemma hitsNote_spec (pr : Props) (containerHeight : Z) (clickX clickY : Q) (n : Note) :
  hitsNote pr containerHeight clickX clickY n = true
  ↔ displayed pr n ∧ inRectangle pr containerHeight clickX clickY n.
Proof.
  unfold hitsNote, displayed, inRectangle.
  destruct (Z.ltb_spec (pitch n) (minNote (notes pr)));
    destruct (Z.ltb_spec (maxNote (notes pr)) (pitch n)); simpl;
    try (split; [done | intros [? _]; lia]).
  rewrite !andb_true_iff, !Qle_bool_iff. split.
  - intros [[[? ?] ?] ?]. split; [lia | done].
  - intros [_ (? & ? & ? & ?)]. done.
Qed.

(** [findIndex] returns the first index that satisfies the predicate. *)
Lemma findIndex_from_spec {A} (p : A → bool) (arr : list A) : ∀ (i : Z),
  (JS.findIndex_from p arr i = (-1)%Z ∧ (0 ≤ i)%Z → ∀ x, x ∈ arr → p x = false)
  ∧ ((0 ≤ i)%Z →
     JS.findIndex_from p arr i = (-1)%Z
     ∨ ∃ (k : nat) (x : A),
         JS.findIndex_from p arr i = (i + Z.of_nat k)%Z
         ∧ arr !! k = Some x ∧ p x = true
         ∧ ∀ (j : nat) (y : A), (j < k)%nat → arr !! j = Some y → p y = false).
Proof.
  induction arr as [|a arr IH]; intros i; simpl.
  - split; [intros _ x Hx; by apply elem_of_nil in Hx | by left].
  - destruct (p a) eqn:Ea.
    + split; [intros [-> Hi]; lia|]. intros Hi. right. exists 0%nat, a.
      repeat split; [lia | done | intros j y Hj; lia].
    + destruct (IH (i + 1)%Z) as [IH1 IH2]. split.
      * intros [Hr Hi] x [-> | Hx]%elem_of_cons; [done|]. apply IH1; [|done]. split; [done|lia].
      * intros Hi. destruct IH2 as [Hr | (k & x & Hr & Hk & Hx & Hfirst)]; [lia | by left |].
        right. exists (S k), x. repeat split; [lia | done | done |].
        intros [|j] y Hj Hy; simpl in Hy; [congruence|]. apply (Hfirst j y); [lia | done].
Qed.

(** C9, as the code has it. The hit test returns the first note in store
    order that lies in the displayed pitch range and whose rectangle
    [x, x+w] x [y, y+h] contains the click, or -1 if there is none.  A note
    with startTime 1.0 and duration 0.1 at 100 pixels per second is drawn
    10 pixels wide from x = 100 to x = 110: a click at x = 105 in its row
    hits it, clicks at x = 111 and at x = 1005 do not. *)
Theorem findNoteAtPosition_first_hit :
  (∀ (pr : Props) (containerHeight : Z) (clickX clickY : Q),
      (findNoteAtPosition pr containerHeight clickX clickY = (-1)%Z
       ∧ ∀ n, n ∈ notes pr →
              ¬ (displayed pr n ∧ inRectangle pr containerHeight clickX clickY n))
      ∨ ∃ (k : nat) (n : Note),
          findNoteAtPosition pr containerHeight clickX clickY = Z.of_nat k
          ∧ notes pr !! k = Some n
          ∧ displayed pr n ∧ inRectangle pr containerHeight clickX clickY n
          ∧ ∀ (j : nat) (m : Note), (j < k)%nat → notes pr !! j = Some m →
              ¬ (displayed pr m ∧ inRectangle pr containerHeight clickX clickY m))
  ∧ (∀ (containerHeight : Z) (vel : option Z),
        let n := mkNote 60 1 (1 # 10) vel in
        let pr := mkProps [n] 100 120 0 "1/8" true in
        let row := noteY pr containerHeight n in
        noteW pr n == 10 ∧ noteX pr n == 100
        ∧ findNoteAtPosition pr containerHeight 105 row = 0%Z
        ∧ findNoteAtPosition pr containerHeight 111 row = (-1)%Z
        ∧ findNoteAtPosition pr containerHeight 1005 row = (-1)%Z).
Proof.
  split.
  - intros pr containerHeight clickX clickY. unfold findNoteAtPosition, JS.findIndex.
    destruct (findIndex_from_spec (hitsNote pr containerHeight clickX clickY) (notes pr) 0)
      as [H1 H2].
    destruct H2 as [Hr | (k & n & Hr & Hk & Hn & Hfirst)]; [lia | left | right].
    + split; [done|]. intros n Hn Hhit. apply hitsNote_spec in Hhit.
      rewrite (H1 (conj Hr (Z.le_refl 0)) n Hn) in Hhit. done.
    + exists k, n. split; [by rewrite Hr|]. split; [done|].
      apply hitsNote_spec in Hn. destruct Hn as [Hd Hin].
      split; [done|]. split; [done|].
      intros j m Hj Hm Hhit. apply hitsNote_spec in Hhit.
      by rewrite (Hfirst j m Hj Hm) in Hhit.
  - intros containerHeight vel n pr row.
    split; [reflexivity|]. split; [reflexivity|].
    assert (Hrow : ∀ x, hitsNote pr containerHeight x row n
                        = Qle_bool (noteX pr n) x && Qle_bool x (noteX pr n + noteW pr n)).
    { intros x. unfold hitsNote, row, noteY, noteH, NOTE_HEIGHT.
      change (maxNote (notes pr)) with 83%Z. change (minNote (notes pr)) with 48%Z.
      change (pitch n) with 60%Z. simpl negb. cbv iota.
      set (h := Z.max 4 _).
      assert (Hh : (4 ≤ h)%Z) by (subst h; lia).
      assert (E1 : Qle_bool (inject_Z ((83 - 60) * h)) (inject_Z ((83 - 60) * h)) = true)
        by (apply Qle_bool_iff, Qle_refl).
      assert (E2 : Qle_bool (inject_Z ((83 - 60) * h))
                     (inject_Z ((83 - 60) * h) + inject_Z (h - 1)) = true).
      { apply Qle_bool_iff. rewrite <- inject_Z_plus, <- Zle_Qle. lia. }
      change ((60 <? 48)%Z || (83 <? 60)%Z) with false. cbv iota.
      rewrite E1, E2. by rewrite !andb_true_r. }
    unfold findNoteAtPosition, JS.findIndex. change (notes pr) with [n].
    simpl JS.findIndex_from. rewrite !Hrow. done.
Qed.

(** C9 as stated fails on its own example: the note drawn from x = 100 to
    x = 110 is not hit by a click at x = 1005. *)
Lemma findNoteAtPosition_misses_1005 :
  let n := mkNote 60 1 (1 # 10) None in
  let pr := mkProps [n] 100 120 0 "1/8" true in
  noteX pr n == 100 ∧ noteW pr n == 10
  ∧ findNoteAtPosition pr 500 1005 (noteY pr 500 n) = (-1)%Z
  ∧ findNoteAtPosition pr 500 1005 (noteY pr 500 n) ≠ 0%Z.
Proof. vm_compute. repeat split; intros; discriminate. Qed.

End HitTest.

(** ** Grid editing: quantize and nudge *)

Section Grid.

Import PianoRoll.

Local Open Scope Q_scope.

Lemma getSubdivisionBeats_pos (subdivision : string) : 0 < getSubdivisionBeats subdivision.
Proof.
  unfold getSubdivisionBeats.
  repeat match goal with |- context [String.eqb ?a ?b] => destruct (String.eqb a b) end;
    reflexivity.
Qed.

Lemma secondsPerSubdiv_pos (pr : Props) : 0 < tempo pr → 0 < secondsPerSubdiv pr.
Proof.
  intros Ht. unfold secondsPerSubdiv.
  apply Qmult_lt_0_compat; [|apply getSubdivisionBeats_pos].
  unfold Qdiv. apply Qmult_lt_0_compat; [reflexivity | by apply Qinv_lt_0_compat].
Qed.

(** The snapped start time of the quantize loop. *)
Lemma quantizeNote_startTime (sps off : Q) (n : Note) :
  startTime (quantizeNote sps off n)
  = JS.Math_max 0 (off + inject_Z (JS.Math_round ((startTime n - off) / sps)) * sps).
Proof. done. Qed.

(** A grid point rounds to its own index. *)
Lemma round_grid_point (sps off : Q) (k : Z) :
  0 < sps → JS.Math_round ((off + inject_Z k * sps - off) / sps) = k.
Proof.
  intros Hs. rewrite <- (Math_round_inject_Z k) at 2.
  apply Math_round_comp. field. lra.
Qed.

Lemma quantize_startTime_idempotent (sps off : Q) (n : Note) :
  0 < sps → 0 <= startTime n →
  startTime (quantizeNote sps off (quantizeNote sps off n))
  == startTime (quantizeNote sps off n).
Proof.
  intros Hs Ht. rewrite (quantizeNote_startTime sps off (quantizeNote _ _ _)).
  rewrite quantizeNote_startTime.
  set (k := JS.Math_round ((startTime n - off) / sps)).
  unfold JS.Math_max at 2 3. destruct (Qle_bool 0 (off + inject_Z k * sps)) eqn:E.
  - (* the snapped time is a grid point, which snaps to itself *)
    rewrite round_grid_point by done. unfold JS.Math_max. by rewrite E.
  - (* the snapped time was clamped to 0; the grid point nearest to 0 is
       no later than the one nearest to the note, hence negative too *)
    apply Qle_bool_false in E.
    set (k0 := JS.Math_round ((0 - off) / sps)).
    assert (Hk : (k0 ≤ k)%Z).
    { apply Math_round_mono, Qdiv_le_compat_r; [done | lra]. }
    assert (Hg : inject_Z k0 * sps <= inject_Z k * sps).
    { apply Qmult_le_compat_r; [by rewrite <- Zle_Qle | lra]. }
    unfold JS.Math_max. destruct (Qle_bool 0 (off + inject_Z k0 * sps)) eqn:E0; [|done].
    apply Qle_bool_iff in E0. lra.
Qed.

(** A note that already sits on its snapped time is left there, whatever
    its start time. *)
Lemma quantize_startTime_fixed (sps off : Q) (n : Note) :
  startTime n
  == JS.Math_max 0 (off + inject_Z (JS.Math_round ((startTime n - off) / sps)) * sps) →
  startTime (quantizeNote sps off n) == startTime n.
Proof. intros H. by rewrite quantizeNote_startTime, <- H. Qed.

Lemma Note_equal_refl (n : Note) : Note_equal n n.
Proof. repeat split; reflexivity. Qed.

Lemma quantizeNote_idempotent (sps off : Q) (n : Note) :
  0 < sps → 0 <= startTime n →
  Note_equal (quantizeNote sps off (quantizeNote sps off n)) (quantizeNote sps off n).
Proof.
  intros Hs Ht. split; [done|]. split; [|done].
  by apply quantize_startTime_idempotent.
Qed.

(** The loop over the selection rewrites exactly the selected positions. *)
Lemma forEach_fold_lookup (f : Note → Note) (l : list nat) :
  NoDup l → ∀ (ns : list Note) (i : nat),
    foldl (λ newNotes idx,
             match newNotes !! idx with
             | Some note => <[idx := f note]> newNotes
             | None => newNotes
             end) ns l !! i
    = if decide (i ∈ l) then f <$> ns !! i else ns !! i.
Proof.
  induction 1 as [|a l Ha Hl IH]; intros ns i; cbn [foldl].
  - case_decide as Hi; [by apply elem_of_nil in Hi | done].
  - rewrite IH. destruct (decide (i = a)) as [-> | Hne].
    + assert (Ea : match ns !! a with
                   | Some note => <[a := f note]> ns
                   | None => ns
                   end !! a = f <$> ns !! a).
      { destruct (ns !! a) as [note|] eqn:E; simpl; [|by rewrite E].
        apply list_lookup_insert_eq. by apply lookup_lt_Some in E. }
      rewrite Ea. destruct (decide (a ∈ l)); [done|].
      destruct (decide (a ∈ a :: l)) as [|Hn]; [done|]. exfalso. apply Hn. by left.
    + assert (Estep : match ns !! a with
                      | Some note => <[a := f note]> ns
                      | None => ns
                      end !! i = ns !! i).
      { destruct (ns !! a); [by apply list_lookup_insert_ne | done]. }
      rewrite Estep.
      destruct (decide (i ∈ l)) as [Hi|Hi]; destruct (decide (i ∈ a :: l)) as [Hc|Hc];
        try done.
      * exfalso. apply Hc. by right.
      * exfalso. by apply elem_of_cons in Hc as [?|?].
Qed.

Lemma forEachSelected_lookup (f : Note → Note) (sel : gset nat) (ns : list Note) (i : nat) :
  forEachSelected f sel ns !! i = if decide (i ∈ sel) then f <$> ns !! i else ns !! i.
Proof.
  unfold forEachSelected. rewrite forEach_fold_lookup by apply NoDup_elements.
  destruct (decide (i ∈ elements sel)) as [Hi|Hi]; destruct (decide (i ∈ sel)) as [Hc|Hc];
    try done; exfalso; apply elem_of_elements in Hi || apply Hi, elem_of_elements; done.
Qed.

Lemma forEachSelected_length (f : Note → Note) (sel : gset nat) (ns : list Note) :
  length (forEachSelected f sel ns) = length ns.
Proof.
  unfold forEachSelected. generalize (elements sel). intros l. revert ns.
  induction l as [|a l IH]; intros ns; simpl; [done|].
  rewrite IH. destruct (ns !! a); [apply length_insert | done].
Qed.


(** C3. Quantize is idempotent: at a positive tempo, quantizing an
    already-quantized note (start time at least 0) again with the same
    tempo, offset and subdivision leaves its start time, and the whole
    note, unchanged; likewise for the store after the Q key. *)
Theorem quantize_idempotent (pr : Props) (sel : gset nat) :
  0 < tempo pr →
  (∀ n, n ∈ notes pr → 0 <= startTime n) →
  let quantize := quantizeNote (secondsPerSubdiv pr) (offset pr) in
  (∀ n, n ∈ notes pr →
        startTime (quantize (quantize n)) == startTime (quantize n)
        ∧ Note_equal (quantize (quantize n)) (quantize n))
  ∧ Notes_equal (forEachSelected quantize sel (forEachSelected quantize sel (notes pr)))
                (forEachSelected quantize sel (notes pr)).
Proof.
  intros Ht Hns quantize. pose proof (secondsPerSubdiv_pos pr Ht) as Hs.
  assert (Hnote : ∀ n, n ∈ notes pr →
                       Note_equal (quantize (quantize n)) (quantize n)).
  { intros n Hn. apply quantizeNote_idempotent; auto. }
  split.
  - intros n Hn. split; [|by apply Hnote].
    apply quantize_startTime_idempotent; auto.
  - apply Forall2_same_length_lookup_2.
    + by rewrite !forEachSelected_length.
    + intros i x y. rewrite !forEachSelected_lookup.
      destruct (decide (i ∈ sel)).
      * destruct (notes pr !! i) as [n|] eqn:E; simpl; [|done].
        intros [= <-] [= <-]. apply Hnote. by apply list_elem_of_lookup_2 in E.
      * intros Hx Hy. rewrite Hx in Hy. injection Hy as ->. apply Note_equal_refl.
Qed.

Lemma quantize_idempotent_witness :
  let pr := mkProps [mkNote 60 (37 # 100) 1 None; mkNote 64 (3 # 2) 1 None]
                    100 120 (1 # 10) "1/8" true in
  let quantize := quantizeNote (secondsPerSubdiv pr) (offset pr) in
  (∀ n, n ∈ notes pr →
        startTime (quantize (quantize n)) == startTime (quantize n)
        ∧ Note_equal (quantize (quantize n)) (quantize n))
  ∧ Notes_equal (forEachSelected quantize {[0%nat]} (forEachSelected quantize {[0%nat]} (notes pr)))
                (forEachSelected quantize {[0%nat]} (notes pr)).
Proof.
  intros pr. apply (quantize_idempotent pr {[0%nat]}).
  - reflexivity.
  - intros n Hn. simpl in Hn.
    apply elem_of_cons in Hn as [-> | Hn]; [discriminate|].
    apply elem_of_cons in Hn as [-> | Hn]; [discriminate|].
    by apply elem_of_nil in Hn.
Defined.

End Grid.

(** ** Keyboard bindings *)

Section Keys.

Import PianoRoll.

Local Open Scope Q_scope.

(** The guard at the top of the handler: with an empty selection, or
    without the [onNotesChange] callback, no binding does anything. *)
Lemma handleKeyDown_guard (pr : Props) (sel : gset nat) (e : KeyboardEvent) :
  size sel = 0%nat ∨ onNotesChange pr = false →
  handleKeyDown pr sel e = {| selection := sel; emitted := [] |}.
Proof.
  intros [H | H]; unfold handleKeyDown; rewrite H; [done|].
  by rewrite orb_true_r.
Qed.

Lemma allIndices_spec (ns : list Note) (i : nat) : i ∈ allIndices ns ↔ (i < length ns)%nat.
Proof.
  unfold allIndices. rewrite elem_of_list_to_set, elem_of_seq. lia.
Qed.

(** Past the guard, Ctrl+A (or Cmd+A) selects every index and Escape
    clears the selection; neither passes notes to [onNotesChange]. *)
Lemma handleKeyDown_select_all (pr : Props) (sel : gset nat) (ctrl meta : bool) :
  size sel ≠ 0%nat → onNotesChange pr = true → ctrl || meta = true →
  handleKeyDown pr sel (mkKey "a" ctrl meta)
  = {| selection := allIndices (notes pr); emitted := [] |}.
Proof.
  intros Hsel Hcb Hmod. unfold handleKeyDown. rewrite Hcb.
  destruct (Nat.eqb_spec (size sel) 0); [done|].
  cbn. by rewrite Hmod.
Qed.

Lemma handleKeyDown_escape (pr : Props) (sel : gset nat) (ctrl meta : bool) :
  size sel ≠ 0%nat → onNotesChange pr = true →
  handleKeyDown pr sel (mkKey "Escape" ctrl meta)
  = {| selection := ∅; emitted := [] |}.
Proof.
  intros Hsel Hcb. unfold handleKeyDown. rewrite Hcb.
  destruct (Nat.eqb_spec (size sel) 0); [done|].
  cbn. by rewrite andb_false_r.
Qed.

(** C8 on the code: the bindings sit behind the guard.  With two notes and
    an empty selection Ctrl+A selects nothing, although the store has the
    indices 0 and 1; without the callback Escape leaves the selection
    {0} in place. *)
Theorem select_all_and_escape_guarded :
  let ns := [mkNote 60 0 1 None; mkNote 62 1 1 None] in
  selection (handleKeyDown (mkProps ns 100 120 0 "1/8" true) ∅ (mkKey "a" true false)) = ∅
  ∧ (0%nat ∈ allIndices ns ∧ 1%nat ∈ allIndices ns)
  ∧ selection (handleKeyDown (mkProps ns 100 120 0 "1/8" false) {[0%nat]}
                 (mkKey "Escape" false false)) = {[0%nat]}.
Proof.
  intros ns. split; [|split].
  - by rewrite handleKeyDown_guard by (left; apply size_empty).
  - rewrite !allIndices_spec. simpl. lia.
  - by rewrite handleKeyDown_guard by (by right).
Qed.

(** The arrow keys pass the nudged store to [onNotesChange]. *)
Lemma handleKeyDown_arrow_left (pr : Props) (sel : gset nat) :
  size sel ≠ 0%nat → onNotesChange pr = true →
  handleKeyDown pr sel (mkKey "ArrowLeft" false false)
  = {| selection := sel;
       emitted := [forEachSelected (nudgeNote (-1) (secondsPerSubdiv pr) (offset pr))
                     sel (notes pr)] |}.
Proof.
  intros Hsel Hcb. unfold handleKeyDown. rewrite Hcb.
  destruct (Nat.eqb_spec (size sel) 0); [done|]. done.
Qed.


(** The nudged start time is always a grid point. *)
Lemma nudgeNote_grid_aligned (direction : Z) (sps off : Q) (n : Note) :
  ∃ k : Z, startTime (nudgeNote direction sps off n) = off + inject_Z k * sps.
Proof. by eexists. Qed.

(** A note on the grid moves by exactly one step when the shifted time is
    not negative. *)
Lemma nudgeNote_on_grid (direction k : Z) (sps off : Q) (n : Note) :
  0 < sps → startTime n == off + inject_Z k * sps →
  0 <= startTime n + inject_Z direction * sps →
  startTime (nudgeNote direction sps off n) == startTime n + inject_Z direction * sps.
Proof.
  intros Hs Hgrid Hpos. unfold nudgeNote. simpl.
  unfold JS.Math_max. apply Qle_bool_iff in Hpos. rewrite Hpos.
  assert (E : JS.Math_round ((startTime n + inject_Z direction * sps - off) / sps)
              = (k + direction)%Z).
  { rewrite <- (Math_round_inject_Z (k + direction)).
    apply Math_round_comp. rewrite inject_Z_plus, Hgrid. field. lra. }
  rewrite E, inject_Z_plus, Hgrid. ring.
Qed.

(** C2 on the code: at tempo 120 and subdivision 1/8 (a step of 0.25 s)
    with the downbeat offset at 0.2 s, ArrowLeft on a selected note that
    starts at 0 first clamps the shifted time to 0 and then snaps it to the
    grid point -0.05: the start time passed on is negative. *)
Theorem nudge_left_goes_negative :
  let n := mkNote 60 0 1 None in
  let pr := mkProps [n] 100 120 (2 # 10) "1/8" true in
  secondsPerSubdiv pr == 1 # 4
  ∧ emitted (handleKeyDown pr {[0%nat]} (mkKey "ArrowLeft" false false))
    = [[nudgeNote (-1) (secondsPerSubdiv pr) (offset pr) n]]
  ∧ startTime (nudgeNote (-1) (secondsPerSubdiv pr) (offset pr) n) == - (5 # 100)
  ∧ startTime (nudgeNote (-1) (secondsPerSubdiv pr) (offset pr) n) < 0.
Proof.
  intros n pr. split; [reflexivity|]. split; [|split; reflexivity].
  rewrite handleKeyDown_arrow_left; [|by rewrite size_singleton|done].
  simpl. unfold forEachSelected. by rewrite elements_singleton.
Qed.

End Keys.

(** ** More on the history *)

Section HistoryComposition.

Import App.

Implicit Types (s : State) (c : list Note) (cs : list (list Note)).

Lemma tail_lookup_S {A} (l : list A) (i : nat) : tail l !! i = l !! S i.
Proof. by destruct l. Qed.

Lemma index_end {A} (arr : list A) : JS.index arr (Z.of_nat (length arr) - 1) = last arr.
Proof.
  unfold JS.index. destruct arr as [|x arr]; [done|].
  destruct (Z.ltb_spec (Z.of_nat (length (x :: arr)) - 1) 0); [simpl in *; lia|].
  rewrite last_lookup. f_equal. simpl. lia.
Qed.

(** The history list after a push that is not skipped, with the state's
    cursor on an entry. *)
Lemma handleNotesChange_fresh s c :
  cursor_valid s →
  (∀ cur, JS.index (historyRef s) (historyIndexRef s) = Some cur → json_eqb cur c = false) →
  let pushed := take (Z.to_nat (historyIndexRef s + 1)) (historyRef s) ++ [c] in
  notes (handleNotesChange c s) = c
  ∧ historyRef (handleNotesChange c s)
    = (if 50 <? Z.of_nat (length pushed) then tail pushed else pushed)
  ∧ historyIndexRef (handleNotesChange c s)
    = Z.of_nat (length (historyRef (handleNotesChange c s))) - 1.
Proof.
  intros Hv Hfresh pushed. unfold handleNotesChange.
  rewrite pushHistory_fresh by (try done; unfold cursor_valid in Hv; lia).
  fold pushed. destruct (50 <? Z.of_nat (length pushed)) eqn:E; simpl.
  - repeat split. subst pushed. rewrite tail_snoc_length, length_app. simpl. lia.
  - repeat split.
Qed.



(** The two shortcut events. *)
Lemma handleKeyDown_undo_key (audioUrl isPlaying meta : bool) s :
  handleKeyDown audioUrl isPlaying (mkShellKey "z" "KeyZ" true meta false) s = (undo s, None).
Proof. done. Qed.

Lemma handleKeyDown_redo_key (audioUrl isPlaying meta shift : bool) s :
  handleKeyDown audioUrl isPlaying (mkShellKey "Z" "KeyZ" true meta shift) s = (redo s, None)
  ∧ handleKeyDown audioUrl isPlaying (mkShellKey "y" "KeyY" true meta shift) s = (redo s, None).
Proof. split; unfold handleKeyDown; cbn; by destruct shift. Qed.

(** X2. Undo and redo are inverse to each other away from the ends of the
    history: when the live notes are the snapshot under the cursor, Ctrl+Z
    followed by Ctrl+Shift+Z (or Ctrl+Y) gives the state back if the cursor
    was not on the first entry, and redo followed by undo gives it back if
    the cursor was not on the last one. *)
Theorem undo_redo_inverse (audioUrl isPlaying : bool) s :
  synced s →
  (0 < historyIndexRef s →
   fst (handleKeyDown audioUrl isPlaying (mkShellKey "Z" "KeyZ" true false true)
          (fst (handleKeyDown audioUrl isPlaying (mkShellKey "z" "KeyZ" true false false) s)))
   = s
   ∧ redo (undo s) = s)
  ∧ (historyIndexRef s < Z.of_nat (length (historyRef s)) - 1 →
     undo (redo s) = s).
Proof.
  intros Hs. pose proof (index_lt _ _ _ Hs) as Hi. split.
  - intros Hpos.
    assert (E : redo (undo s) = s).
    { destruct (undo_synced s Hs) as (Hu1 & Hu2 & Hu3).
      destruct (redo_synced _ Hu1) as (Hr1 & Hr2 & Hr3).
      apply synced_eq; [done | done | congruence |]. rewrite Hr3, Hu2, Hu3. lia. }
    split; [|done]. rewrite handleKeyDown_undo_key. cbn [fst].
    destruct (handleKeyDown_redo_key audioUrl isPlaying false true (undo s)) as [-> _].
    done.
  - intros Hlt.
    destruct (redo_synced s Hs) as (Hr1 & Hr2 & Hr3).
    destruct (undo_synced _ Hr1) as (Hu1 & Hu2 & Hu3).
    apply synced_eq; [done | done | congruence |]. rewrite Hu3, Hr3. lia.
Qed.

Lemma undo_redo_inverse_witness :
  let s := run [OpLoad [mkNote 60 0 1 None]; OpCommit [mkNote 61 0 1 None];
                OpCommit [mkNote 62 0 1 None]; OpUndo] initial in
  (fst (handleKeyDown true false (mkShellKey "Z" "KeyZ" true false true)
          (fst (handleKeyDown true false (mkShellKey "z" "KeyZ" true false false) s)))
   = s
   ∧ redo (undo s) = s)
  ∧ undo (redo s) = s.
Proof.
  intros s.
  destruct (undo_redo_inverse true false s) as [H1 H2]; [reflexivity|].
  split; [apply H1 | apply H2]; done.
Defined.

(** X3. Undo right after a commit brings back the notes as they were before
    the commit, also when the commit evicted the oldest snapshot; redo then
    returns to the committed state. *)
Theorem undo_after_commit s c :
  synced s →
  (∀ cur, JS.index (historyRef s) (historyIndexRef s) = Some cur → json_eqb cur c = false) →
  notes (undo (handleNotesChange c s)) = notes s
  ∧ redo (undo (handleNotesChange c s)) = handleNotesChange c s.
Proof.
  intros Hs Hfresh. pose proof (index_lt _ _ _ Hs) as Hi.
  pose proof (synced_cursor_valid s Hs) as Hv.
  destruct (commit_fresh_synced s c (or_introl Hv) Hfresh) as [Hsync Hend].
  destruct (handleNotesChange_fresh s c Hv Hfresh) as (_ & Hhist & _).
  set (s' := handleNotesChange c s) in *.
  set (k := Z.to_nat (historyIndexRef s + 1)) in *.
  assert (Hk : (k ≤ length (historyRef s))%nat) by lia.
  assert (Hlen : length (take k (historyRef s) ++ [c]) = S k).
  { rewrite length_app, length_take_le by done. simpl. lia. }
  apply index_Some in Hs as [_ Hs].
  assert (Hpush : (take k (historyRef s) ++ [c]) !! Z.to_nat (historyIndexRef s)
                  = Some (notes s)).
  { rewrite lookup_app_l by (rewrite length_take_le by done; lia).
    rewrite lookup_take_lt by lia. done. }
  assert (Hprev : JS.index (historyRef s') (historyIndexRef s' - 1) = Some (notes s)).
  { rewrite Hend, Hhist, Hlen. destruct (Z.ltb_spec 50 (Z.of_nat (S k))).
    - rewrite tail_snoc_length, length_take_le by done.
      apply index_Some. split; [lia|]. rewrite tail_lookup_S.
      replace (S (Z.to_nat (Z.of_nat k - 1 - 1))) with (Z.to_nat (historyIndexRef s)) by lia.
      done.
    - rewrite Hlen. apply index_Some. split; [lia|].
      replace (Z.to_nat (Z.of_nat (S k) - 1 - 1)) with (Z.to_nat (historyIndexRef s)) by lia.
      done. }
  assert (Hpos : 0 < historyIndexRef s').
  { pose proof (index_lt _ _ _ Hprev). lia. }
  split.
  - unfold undo. destruct (Z.ltb_spec 0 (historyIndexRef s')); [|lia]. by rewrite Hprev.
  - destruct (undo_synced s' Hsync) as (Hu1 & Hu2 & Hu3).
    destruct (redo_synced _ Hu1) as (Hr1 & Hr2 & Hr3).
    apply synced_eq; [done | done | congruence |]. rewrite Hr3, Hu2, Hu3. lia.
Qed.

Lemma undo_after_commit_witness :
  let s := run [OpLoad [mkNote 60 0 1 None]; OpCommit [mkNote 61 0 1 None]] initial in
  let c := [mkNote 65 0 1 None] in
  notes (undo (handleNotesChange c s)) = notes s
  ∧ redo (undo (handleNotesChange c s)) = handleNotesChange c s.
Proof.
  intros s c. apply (undo_after_commit s c); [reflexivity|].
  intros cur [= <-]. reflexivity.
Defined.

End HistoryComposition.

Section HistoryWindow.

Import App.

Implicit Types (s : State) (c : list Note) (cs : list (list Note)).

Lemma commits_window cs : ∀ s,
  bounded s → cursor_valid s →
  historyIndexRef s = Z.of_nat (length (historyRef s)) - 1 →
  no_duplicate_commit cs s →
  historyRef (commits cs s)
  = drop (length (historyRef s ++ cs) - 50) (historyRef s ++ cs).
Proof.
  induction cs as [|c cs IH]; intros s Hb Hv Hend Hnd.
  - simpl. rewrite app_nil_r. unfold bounded in Hb.
    replace (length (historyRef s) - 50)%nat with 0%nat by lia. done.
  - destruct Hnd as [Hfresh Hrest]. rewrite commits_cons.
    destruct (handleNotesChange_invariant s c Hb (or_introl Hv)) as [Hb' Hv'].
    destruct (handleNotesChange_fresh s c Hv Hfresh) as (_ & Hhist & Hend').
    rewrite (IH _ Hb' Hv' Hend' Hrest), Hhist. clear IH Hrest Hend' Hb' Hv' Hhist.
    replace (Z.to_nat (historyIndexRef s + 1)) with (length (historyRef s)) by lia.
    rewrite firstn_all. unfold bounded in Hb.
    destruct (Z.ltb_spec 50 (Z.of_nat (length (historyRef s ++ [c])))) as [Hfull | Hroom].
    + rewrite length_app in Hfull. simpl in Hfull.
      destruct (historyRef s) as [|x h0] eqn:Eh; [simpl in *; lia|].
      simpl in Hb, Hfull. assert (Hlen : length h0 = 49%nat) by lia.
      simpl tail. rewrite <- !app_assoc. simpl.
      rewrite !length_app. simpl. rewrite Hlen.
      replace (49 + S (length cs) - 50)%nat with (length cs) by lia.
      replace (S (49 + S (length cs)) - 50)%nat with (S (length cs)) by lia.
      done.
    + by rewrite <- app_assoc.
Qed.

(** X4. The history is a window on the most recent snapshots: after a load
    followed by commits none of which is skipped, it holds exactly the last
    50 of the loaded snapshot and the commits, in order, and undoing as far
    as possible lands on the oldest of those. *)
Theorem history_keeps_last_50 (ns : list Note) cs s0 :
  no_duplicate_commit cs (loadMidi ns s0) →
  historyRef (commits cs (loadMidi ns s0)) = drop (length (ns :: cs) - 50) (ns :: cs)
  ∧ Some (notes (Nat.iter (length cs) undo (commits cs (loadMidi ns s0))))
    = head (drop (length (ns :: cs) - 50) (ns :: cs)).
Proof.
  intros Hnd.
  assert (Hb : bounded (loadMidi ns s0)) by (unfold bounded; simpl; lia).
  assert (Hv : cursor_valid (loadMidi ns s0)) by (unfold cursor_valid; simpl; lia).
  assert (Hw := commits_window cs (loadMidi ns s0) Hb Hv eq_refl Hnd).
  simpl historyRef in Hw at 2 3. simpl app in Hw.
  split; [done|].
  set (s := commits cs (loadMidi ns s0)) in *.
  assert (Hsync : synced s ∧ historyIndexRef s = Z.of_nat (length (historyRef s)) - 1).
  { destruct cs as [|c cs']; [done|]. apply commits_synced; auto. }
  destruct Hsync as [Hsync Hend].
  destruct (iter_undo_synced (length cs) s Hsync) as (Hu1 & Hu2 & Hu3).
  unfold synced in Hu1. rewrite Hu2, Hu3 in Hu1.
  assert (Hle : (length (historyRef s) ≤ S (length cs))%nat).
  { rewrite Hw, length_drop. simpl. lia. }
  replace (Z.max 0 (historyIndexRef s - Z.of_nat (length cs))) with 0 in Hu1 by lia.
  rewrite <- Hw. rewrite <- Hu1. unfold JS.index. simpl. by destruct (historyRef s).
Qed.

Lemma history_keeps_last_50_witness :
  let ns := [mkNote 60 0 1 None] in
  let cs := [[mkNote 61 0 1 None]; [mkNote 62 0 1 None]] in
  historyRef (commits cs (loadMidi ns initial)) = ns :: cs
  ∧ Some (notes (Nat.iter 2 undo (commits cs (loadMidi ns initial)))) = Some ns.
Proof.
  intros ns cs. apply (history_keeps_last_50 ns cs initial).
  simpl. repeat split; intros cur [= <-]; reflexivity.
Defined.

End HistoryWindow.

(** ** More on tap tempo *)

Section TapSequences.

Import App.

Implicit Types (s : TapState) (now : Z).

Lemma deref_insert_eq (h : list (list Z)) (a : nat) (arr : list Z) :
  (a < length h)%nat → deref (<[a := arr]> h) a = arr.
Proof. intros H. unfold deref. by rewrite list_lookup_insert_eq. Qed.

Lemma handleTapTempo_wf s now : tap_wf s → tap_wf (handleTapTempo now s).
Proof.
  intros [Href Hlen]. unfold tap_wf, currentTaps, handleTapTempo, handleTapTempo_call in *.
  set (arr0 := deref (heap s) (tapTimesRef s)) in *.
  set (arr2 := if 8 <? Z.of_nat (length (arr0 ++ [now]))
               then JS.shift (arr0 ++ [now]) else arr0 ++ [now]).
  assert (H2 : (length arr2 ≤ 8)%nat).
  { subst arr2. destruct (Z.ltb_spec 8 (Z.of_nat (length (arr0 ++ [now])))) as [H|H].
    - unfold JS.shift. rewrite tail_snoc_length. lia.
    - lia. }
  set (reset := (0 <? Z.of_nat (length arr0)) && _).
  destruct (2 <=? Z.of_nat (length arr2)); simpl; destruct reset; simpl.
  all: rewrite ?length_insert, ?length_app; simpl; split; try lia.
  all: unfold deref.
  all: try (rewrite list_lookup_insert_ne by lia; rewrite lookup_app_r, Nat.sub_diag by lia;
            simpl; lia).
  all: rewrite list_lookup_insert_eq by lia; simpl; lia.
Qed.

(** X5. Only the last eight taps are kept: whatever the times of the taps,
    the sequence reached through the ref never holds more than eight time
    stamps. *)
Theorem tap_sequence_bounded (times : list Z) :
  (length (currentTaps (tapAll times tapInitial)) ≤ 8)%nat.
Proof.
  assert (H : ∀ s, tap_wf s → tap_wf (tapAll times s)).
  { induction times as [|t times IH]; intros s Hs; [done|].
    simpl. apply IH. by apply handleTapTempo_wf. }
  apply (H tapInitial). split; simpl; lia.
Qed.

Local Open Scope Q_scope.

(** The intervals between consecutive stamps add up to last minus first. *)
Lemma intervals_sum (l : list Z) : ∀ (t0 acc : Z),
  foldl Z.add acc (zip_with (λ prev cur, (cur - prev)%Z) (t0 :: l) l)
  = (acc + (default t0 (last l) - t0))%Z.
Proof.
  induction l as [|t l IH]; intros t0 acc; [simpl; lia|].
  change (foldl Z.add acc (zip_with (λ prev cur, (cur - prev)%Z) (t0 :: t :: l) (t :: l)))
    with (foldl Z.add (acc + (t - t0))%Z (zip_with (λ prev cur, (cur - prev)%Z) (t :: l) l)).
  rewrite IH. rewrite last_cons. destruct (last l); simpl; lia.
Qed.

Lemma intervals_length (l : list Z) (t0 : Z) :
  length (zip_with (λ prev cur, (cur - prev)%Z) (t0 :: l) l) = length l.
Proof. apply length_zip_with_r. simpl. lia. Qed.

(** The tempo computed from a sequence, in terms of its ends. *)
Lemma tapBpm_cons (t0 : Z) (k : list Z) :
  tapBpm (t0 :: k)
  = (if Qeq_bool (inject_Z (default t0 (last k) - t0) / inject_Z (Z.of_nat (length k))) 0
     then 300
     else JS.Math_min 300
            (JS.Math_max 1
               (inject_Z (JS.Math_round
                            (60000 / (inject_Z (default t0 (last k) - t0)
                                      / inject_Z (Z.of_nat (length k)))))))).
Proof.
  unfold tapBpm. simpl tail.
  rewrite intervals_sum, intervals_length, Z.add_0_l. done.
Qed.

(** X6. The tap tempo depends only on the first stamp, the last stamp and
    the number of stamps: the average of the intervals is
    (last - first) / (count - 1), whatever the spacing in between. *)
Theorem tapBpm_first_last (t0 : Z) (l l' : list Z) :
  length l = length l' → last l = last l' →
  tapBpm (t0 :: l) = tapBpm (t0 :: l')
  ∧ tapBpm (t0 :: l)
    = (if Qeq_bool (inject_Z (default t0 (last l) - t0) / inject_Z (Z.of_nat (length l))) 0
       then 300
       else JS.Math_min 300
              (JS.Math_max 1
                 (inject_Z (JS.Math_round
                              (60000 / (inject_Z (default t0 (last l) - t0)
                                        / inject_Z (Z.of_nat (length l)))))))).
Proof.
  intros Hlen Hlast. split; [|apply tapBpm_cons].
  by rewrite !tapBpm_cons, Hlen, Hlast.
Qed.

Lemma tapBpm_first_last_witness :
  tapBpm [0; 100; 1500]%Z = tapBpm [0; 1400; 1500]%Z
  ∧ tapBpm [0; 100; 1500]%Z
    = (if Qeq_bool (inject_Z (1500 - 0) / inject_Z 2) 0 then 300
       else JS.Math_min 300
              (JS.Math_max 1
                 (inject_Z (JS.Math_round (60000 / (inject_Z (1500 - 0) / inject_Z 2)))))).
Proof. apply (tapBpm_first_last 0%Z [100; 1500]%Z [1400; 1500]%Z); reflexivity. Defined.

(** Evenly spaced stamps. *)
Lemma evenTaps_snoc (n : nat) : ∀ (t0 d : Z),
  evenTaps t0 d n ++ [(t0 + Z.of_nat n * d)%Z] = evenTaps t0 d (S n).
Proof.
  induction n as [|n IH]; intros t0 d.
  - simpl. f_equal. lia.
  - change (evenTaps t0 d (S n)) with (t0 :: evenTaps (t0 + d) d n).
    change (evenTaps t0 d (S (S n))) with (t0 :: evenTaps (t0 + d) d (S n)).
    rewrite <- IH. simpl. do 3 f_equal. lia.
Qed.

Lemma evenTaps_length (n : nat) : ∀ (t0 d : Z), length (evenTaps t0 d n) = n.
Proof. induction n as [|n IH]; intros; simpl; [done | by rewrite IH]. Qed.

Lemma evenTaps_last (n : nat) : ∀ (t0 d : Z),
  last (evenTaps t0 d (S n)) = Some (t0 + Z.of_nat n * d)%Z.
Proof. intros. by rewrite <- evenTaps_snoc, last_snoc. Qed.

Lemma tapBpm_evenTaps (t0 d : Z) (n : nat) :
  (0 < d)%Z → tapBpm (evenTaps t0 d (S (S n))) = steadyBpm d.
Proof.
  intros Hd. change (evenTaps t0 d (S (S n))) with (t0 :: evenTaps (t0 + d) d (S n)).
  rewrite tapBpm_cons.
  rewrite evenTaps_last, evenTaps_length. simpl default.
  set (total := (t0 + d + Z.of_nat n * d - t0)%Z).
  assert (Havg : inject_Z total / inject_Z (Z.of_nat (S n)) == inject_Z d).
  { assert (Ht : total = (Z.of_nat (S n) * d)%Z) by (subst total; nia).
    rewrite Ht, inject_Z_mult. field.
    intros H0. unfold Qeq in H0. simpl in H0. lia. }
  assert (Hnz : Qeq_bool (inject_Z total / inject_Z (Z.of_nat (S n))) 0 = false).
  { destruct (Qeq_bool _ 0) eqn:E; [|done]. apply Qeq_bool_iff in E.
    rewrite Havg in E. unfold Qeq in E. simpl in E. lia. }
  rewrite Hnz. unfold steadyBpm. do 3 f_equal. apply Math_round_comp. by rewrite Havg.
Qed.

(** One more tap of a steady beat. *)
Lemma handleTapTempo_steady s (a d : Z) (n : nat) :
  (0 < d ≤ 2000)%Z → tap_wf s → currentTaps s = evenTaps a d (S n) →
  tap_wf (handleTapTempo (a + Z.of_nat (S n) * d) s)
  ∧ tempo (handleTapTempo (a + Z.of_nat (S n) * d) s) = steadyBpm d
  ∧ ∃ a' n', currentTaps (handleTapTempo (a + Z.of_nat (S n) * d) s) = evenTaps a' d (S n')
             ∧ (a' + Z.of_nat (S n') * d = a + Z.of_nat (S (S n)) * d)%Z.
Proof.
  intros Hd Hwf Hcur. split; [by apply handleTapTempo_wf|].
  destruct Hwf as [Href Hlen]. unfold currentTaps in *.
  unfold handleTapTempo, handleTapTempo_call. rewrite Hcur.
  rewrite index_end, evenTaps_last. rewrite evenTaps_snoc.
  assert (Hnoreset : (2000 <? a + Z.of_nat (S n) * d - (a + Z.of_nat n * d))%Z = false).
  { apply Z.ltb_ge. lia. }
  rewrite Hnoreset, andb_false_r. rewrite evenTaps_length.
  destruct (Z.ltb_spec 8 (Z.of_nat (S (S n)))) as [Hfull | Hroom].
  - change (JS.shift (evenTaps a d (S (S n)))) with (evenTaps (a + d) d (S n)).
    rewrite evenTaps_length.
    destruct (Z.leb_spec 2 (Z.of_nat (S n))) as [_|?]; [|lia].
    cbn [fst tempo heap tapTimesRef]. split.
    + destruct n as [|n]; [lia|]. apply tapBpm_evenTaps. lia.
    + exists (a + d)%Z, n. unfold deref. rewrite list_lookup_insert_eq by done.
      split; [done | lia].
  - rewrite evenTaps_length.
    destruct (Z.leb_spec 2 (Z.of_nat (S (S n)))) as [_|?]; [|lia].
    cbn [fst tempo heap tapTimesRef]. split.
    + apply tapBpm_evenTaps. lia.
    + exists a, (S n). unfold deref. rewrite list_lookup_insert_eq by done.
      split; [done | lia].
Qed.

Lemma tapAll_steady (k : nat) : ∀ s (a d : Z) (n : nat),
  (0 < d ≤ 2000)%Z → tap_wf s → currentTaps s = evenTaps a d (S n) →
  tempo (tapAll (evenTaps (a + Z.of_nat (S n) * d) d (S k)) s) = steadyBpm d.
Proof.
  induction k as [|k IH]; intros s a d n Hd Hwf Hcur.
  - simpl. by apply (handleTapTempo_steady s a d n).
  - change (evenTaps (a + Z.of_nat (S n) * d) d (S (S k)))
      with ((a + Z.of_nat (S n) * d)%Z :: evenTaps (a + Z.of_nat (S n) * d + d) d (S k)).
    simpl tapAll. unfold tapAll in *. simpl foldl.
    destruct (handleTapTempo_steady s a d n Hd Hwf Hcur) as (Hwf' & _ & a' & n' & Hcur' & Hnext).
    replace (a + Z.of_nat (S n) * d + d)%Z with (a' + Z.of_nat (S n') * d)%Z by lia.
    by apply IH.
Qed.

(** X7. A steady beat gives its tempo: starting with no taps recorded, two
    or more taps spaced [d] ms apart (0 < d <= 2000) leave the tempo at
    round(60000 / d) clamped to [1, 300], however many taps there are; a
    beat of 500 ms gives 120. *)
Theorem steady_taps_tempo (t0 d : Z) (k : nat) :
  (0 < d ≤ 2000)%Z →
  tempo (tapAll (evenTaps t0 d (S (S k))) tapInitial) = steadyBpm d
  ∧ (d = 500%Z → tempo (tapAll (evenTaps t0 d (S (S k))) tapInitial) == 120).
Proof.
  intros Hd.
  assert (E : tempo (tapAll (evenTaps t0 d (S (S k))) tapInitial) = steadyBpm d).
  { change (evenTaps t0 d (S (S k))) with (t0 :: evenTaps (t0 + d) d (S k)).
    unfold tapAll. simpl foldl. fold (tapAll (evenTaps (t0 + d) d (S k)) (handleTapTempo t0 tapInitial)).
    replace (t0 + d)%Z with (t0 + Z.of_nat 1 * d)%Z by lia.
    apply (tapAll_steady k _ t0 d 0%nat Hd).
    - apply handleTapTempo_wf. split; simpl; lia.
    - done. }
  split; [done|]. intros ->. rewrite E. reflexivity.
Qed.

Lemma steady_taps_tempo_witness :
  tempo (tapAll [0; 500; 1000; 1500]%Z tapInitial) = steadyBpm 500
  ∧ tempo (tapAll [0; 500; 1000; 1500]%Z tapInitial) == 120.
Proof.
  destruct (steady_taps_tempo 0 500 2) as [H1 H2]; [lia|].
  split; [exact H1 | by apply H2].
Defined.

(** X8. A tap that comes more than 2000 ms late still sets the tempo, and
    from the old sequence: the value passed to [setTempo] averages the
    earlier taps together with the long gap. *)
Theorem late_tap_averages_gap s now (old : list Z) (prev : Z) :
  heap s !! tapTimesRef s = Some old → last old = Some prev → (2000 < now - prev)%Z →
  snd (handleTapTempo_call now s)
  = Some (tapBpm (if (8 <? Z.of_nat (length (old ++ [now])))%Z
                  then tail (old ++ [now]) else old ++ [now]))
  ∧ currentTaps (handleTapTempo now s) = [].
Proof.
  intros Hold Hlast Hgap.
  destruct (handleTapTempo_reset s now old prev Hold Hlast Hgap) as (Href & Hnew & _).
  split; [|unfold currentTaps, deref; by rewrite Href, Hnew].
  destruct (handleTapTempo_reset_updates s now old prev Hold Hlast) as [bpm Hbpm].
  rewrite Hbpm. revert Hbpm. unfold handleTapTempo_call, deref. rewrite Hold. simpl.
  destruct (2 <=? _)%Z; simpl; [|done]. by intros [= <-].
Qed.

Lemma late_tap_averages_gap_witness :
  let s := tapAll [0; 500]%Z tapInitial in
  snd (handleTapTempo_call 2600 s) = Some (tapBpm [0; 500; 2600]%Z)
  ∧ currentTaps (handleTapTempo 2600 s) = [].
Proof.
  intros s. apply (late_tap_averages_gap s 2600 [0; 500]%Z 500); [reflexivity | reflexivity | lia].
Defined.

End TapSequences.

(** ** The displayed pitch range *)

Section PitchRange.

Import PianoRoll.

Lemma foldl_min_le (ps : list Z) : ∀ (p : Z),
  (foldl Z.min p ps ≤ p)%Z ∧ ∀ x, x ∈ ps → (foldl Z.min p ps ≤ x)%Z.
Proof.
  induction ps as [|q ps IH]; intros p; simpl.
  - split; [lia | intros x Hx; by apply elem_of_nil in Hx].
  - destruct (IH (Z.min p q)) as [H1 H2]. split; [lia|].
    intros x [-> | Hx]%elem_of_cons; [lia | by apply H2].
Qed.

Lemma foldl_max_ge (ps : list Z) : ∀ (p : Z),
  (p ≤ foldl Z.max p ps)%Z ∧ ∀ x, x ∈ ps → (x ≤ foldl Z.max p ps)%Z.
Proof.
  induction ps as [|q ps IH]; intros p; simpl.
  - split; [lia | intros x Hx; by apply elem_of_nil in Hx].
  - destruct (IH (Z.max p q)) as [H1 H2]. split; [lia|].
    intros x [-> | Hx]%elem_of_cons; [lia | by apply H2].
Qed.

Lemma minNotePitch_le (ns : list Note) (n : Note) : n ∈ ns → (minNotePitch ns ≤ pitch n)%Z.
Proof.
  intros Hn. unfold minNotePitch.
  assert (Hp : pitch n ∈ pitch <$> ns) by (apply list_elem_of_fmap; by exists n).
  destruct (pitch <$> ns) as [|p ps]; [by apply elem_of_nil in Hp|].
  destruct (foldl_min_le ps p) as [H1 H2].
  apply elem_of_cons in Hp as [-> | Hp]; [done | by apply H2].
Qed.

Lemma maxNotePitch_ge (ns : list Note) (n : Note) : n ∈ ns → (pitch n ≤ maxNotePitch ns)%Z.
Proof.
  intros Hn. unfold maxNotePitch.
  assert (Hp : pitch n ∈ pitch <$> ns) by (apply list_elem_of_fmap; by exists n).
  destruct (pitch <$> ns) as [|p ps]; [by apply elem_of_nil in Hp|].
  destruct (foldl_max_ge ps p) as [H1 H2].
  apply elem_of_cons in Hp as [-> | Hp]; [done | by apply H2].
Qed.

(** X9. The displayed pitch range stays inside the piano range [21, 108]
    and pads every note of the store by at least two semitones on each side
    unless that range cuts the padding off; so every note with a pitch in
    [21, 108] is displayed, and the row height is at least 4 pixels. *)
Theorem displayed_range_covers (ns : list Note) (n : Note) (containerHeight : Z) :
  n ∈ ns →
  (21 ≤ minNote ns ≤ Z.max 21 (pitch n - 2))%Z
  ∧ (Z.min 108 (pitch n + 2) ≤ maxNote ns ≤ 108)%Z
  ∧ ((21 ≤ pitch n ≤ 108)%Z → (minNote ns ≤ pitch n ≤ maxNote ns)%Z)
  ∧ (4 ≤ NOTE_HEIGHT ns containerHeight)%Z.
Proof.
  intros Hn. pose proof (minNotePitch_le ns n Hn) as Hlo.
  pose proof (maxNotePitch_ge ns n Hn) as Hhi.
  unfold minNote, maxNote, NOTE_HEIGHT.
  pose proof (Z.mul_div_le (minNotePitch ns - 2) 12 eq_refl) as Hfloor.
  pose proof (Z.mul_div_le (- (maxNotePitch ns + 2)) 12 eq_refl) as Hceil.
  repeat split; lia.
Qed.

Lemma displayed_range_covers_witness :
  let ns := [mkNote 60 0 1 None; mkNote 30 1 1 None; mkNote 100 2 1 None] in
  (21 ≤ minNote ns ≤ Z.max 21 (30 - 2))%Z
  ∧ (Z.min 108 (30 + 2) ≤ maxNote ns ≤ 108)%Z
  ∧ ((21 ≤ 30 ≤ 108)%Z → (minNote ns ≤ 30 ≤ maxNote ns)%Z)
  ∧ (4 ≤ NOTE_HEIGHT ns 500)%Z.
Proof.
  intros ns. apply (displayed_range_covers ns (mkNote 30 1 1 None) 500).
  apply elem_of_cons. right. apply elem_of_cons. by left.
Defined.

End PitchRange.

(** ** Rectangle selection and the mouse *)

Section RectangleSelection.

Import PianoRoll.

Local Open Scope Q_scope.

Lemma Math_min_le_iff (a b c : Q) : JS.Math_min a b <= c ↔ a <= c ∨ b <= c.
Proof.
  unfold JS.Math_min. destruct (Qle_bool a b) eqn:E.
  - apply Qle_bool_iff in E. split; [auto | intros [H | H]; lra].
  - apply Qle_bool_false in E. split; [auto | intros [H | H]; lra].
Qed.

Lemma Math_max_ge_iff (a b c : Q) : c <= JS.Math_max a b ↔ c <= a ∨ c <= b.
Proof.
  unfold JS.Math_max. destruct (Qle_bool a b) eqn:E.
  - apply Qle_bool_iff in E. split; [auto | intros [H | H]; lra].
  - apply Qle_bool_false in E. split; [auto | intros [H | H]; lra].
Qed.

Lemma Math_max_upper (a b c : Q) : a <= c → b <= c → JS.Math_max a b <= c.
Proof. intros Ha Hb. unfold JS.Math_max. by destruct (Qle_bool a b). Qed.

Lemma Math_min_same (a : Q) : JS.Math_min a a = a.
Proof. unfold JS.Math_min. by destruct (Qle_bool a a). Qed.

Lemma Math_max_same (a : Q) : JS.Math_max a a = a.
Proof. unfold JS.Math_max. by destruct (Qle_bool a a). Qed.

Lemma findNotesInRect_from_spec (pr : Props) (containerHeight : Z) (minX maxX minY maxY : Q)
    (ns : list Note) : ∀ (index : nat) (selected : gset nat) (i : nat),
  i ∈ findNotesInRect_from pr containerHeight minX maxX minY maxY ns index selected
  ↔ i ∈ selected
    ∨ ∃ (j : nat) (n : Note), i = (index + j)%nat ∧ ns !! j = Some n
        ∧ boxTest pr containerHeight minX maxX minY maxY n.
Proof.
  induction ns as [|n ns IH]; intros index selected i; simpl.
  - split; [auto | intros [H | (j & m & _ & Hj & _)]; [done | by destruct j]].
  - rewrite IH. clear IH.
    assert (Hstep : ∀ (sel' : gset nat),
      (i ∈ sel' ↔ i ∈ selected ∨ (i = index ∧ boxTest pr containerHeight minX maxX minY maxY n)) →
      (i ∈ sel'
       ∨ (∃ (j : nat) (m : Note), i = (S index + j)%nat ∧ ns !! j = Some m
            ∧ boxTest pr containerHeight minX maxX minY maxY m))
      ↔ i ∈ selected
        ∨ ∃ (j : nat) (m : Note), i = (index + j)%nat ∧ (n :: ns) !! j = Some m
            ∧ boxTest pr containerHeight minX maxX minY maxY m).
    { intros sel' [Hsel1 Hsel2]. split.
      - intros [H | (j & m & -> & Hj & Hb)].
        + destruct (Hsel1 H) as [? | [-> Hb]]; [by left|].
          right. exists 0%nat, n. split; [lia | done].
        + right. exists (S j), m. split; [lia | done].
      - intros [H | (j & m & -> & Hj & Hb)]; [left; apply Hsel2; by left|].
        destruct j as [|j]; simpl in Hj.
        + injection Hj as ->. left. apply Hsel2. right. split; [lia | done].
        + right. exists j, m. split; [lia | done]. }
    apply Hstep. unfold boxTest, displayed.
    destruct (Z.ltb_spec (pitch n) (minNote (notes pr)));
      destruct (Z.ltb_spec (maxNote (notes pr)) (pitch n)); simpl;
      try (split; [auto | intros [? | [_ [? _]]]; [done | lia]]).
    destruct (Qle_bool minX (noteX pr n + noteW pr n)
              && Qle_bool (noteX pr n) maxX
              && Qle_bool minY (noteY pr containerHeight n + noteH pr containerHeight)
              && Qle_bool (noteY pr containerHeight n) maxY) eqn:E.
    + rewrite !andb_true_iff, !Qle_bool_iff in E. destruct E as [[[? ?] ?] ?].
      rewrite elem_of_union, elem_of_singleton. split.
      * intros [-> | ?]; [right | by left]. repeat split; try done; lia.
      * intros [? | [-> _]]; [by right | by left].
    + split; [auto|]. intros [? | [_ (_ & ? & ? & ? & ?)]]; [done|].
      exfalso. rewrite <- not_true_iff_false in E. apply E.
      by rewrite !andb_true_iff, !Qle_bool_iff.
Qed.

Lemma findNotesInRect_spec (pr : Props) (containerHeight : Z) (x1 y1 x2 y2 : Q) (i : nat) :
  i ∈ findNotesInRect pr containerHeight x1 y1 x2 y2
  ↔ ∃ n, notes pr !! i = Some n ∧ displayed pr n
         ∧ overlapsBox pr containerHeight x1 y1 x2 y2 n.
Proof.
  unfold findNotesInRect. rewrite findNotesInRect_from_spec. unfold boxTest, overlapsBox.
  split.
  - intros [H | (j & n & -> & Hj & Hb)]; [by apply not_elem_of_empty in H|]. by exists n.
  - intros (n & Hi & Hb). right. by exists i, n.
Qed.

(** X10. Rectangle selection picks exactly the displayed notes whose drawn
    rectangle meets the box, and it does not matter which two opposite
    corners of the box are given, nor in which order. *)
Theorem findNotesInRect_corners (pr : Props) (containerHeight : Z) (x1 y1 x2 y2 : Q) :
  (∀ i, i ∈ findNotesInRect pr containerHeight x1 y1 x2 y2
        ↔ ∃ n, notes pr !! i = Some n
               ∧ (minNote (notes pr) ≤ pitch n ≤ maxNote (notes pr))%Z
               ∧ JS.Math_min x1 x2 <= noteX pr n + noteW pr n
               ∧ noteX pr n <= JS.Math_max x1 x2
               ∧ JS.Math_min y1 y2 <= noteY pr containerHeight n + noteH pr containerHeight
               ∧ noteY pr containerHeight n <= JS.Math_max y1 y2)
  ∧ findNotesInRect pr containerHeight x2 y2 x1 y1
    = findNotesInRect pr containerHeight x1 y1 x2 y2
  ∧ findNotesInRect pr containerHeight x1 y2 x2 y1
    = findNotesInRect pr containerHeight x1 y1 x2 y2.
Proof.
  split; [intros i; apply findNotesInRect_spec|].
  assert (Hswap : ∀ n, overlapsBox pr containerHeight x2 y2 x1 y1 n
                       ↔ overlapsBox pr containerHeight x1 y1 x2 y2 n).
  { intros n. unfold overlapsBox. rewrite !Math_min_le_iff, !Math_max_ge_iff. tauto. }
  assert (Hflip : ∀ n, overlapsBox pr containerHeight x1 y2 x2 y1 n
                       ↔ overlapsBox pr containerHeight x1 y1 x2 y2 n).
  { intros n. unfold overlapsBox. rewrite !Math_min_le_iff, !Math_max_ge_iff. tauto. }
  split; apply set_eq; intros i; rewrite !findNotesInRect_spec.
  - split; intros (n & Hi & Hd & Ho); exists n; (split; [done|]); (split; [done|]);
      by apply Hswap.
  - split; intros (n & Hi & Hd & Ho); exists n; (split; [done|]); (split; [done|]);
      by apply Hflip.
Qed.

Lemma findIndex_none {A} (p : A → bool) (arr : list A) :
  JS.findIndex p arr = (-1)%Z ↔ ∀ x, x ∈ arr → p x = false.
Proof.
  unfold JS.findIndex. destruct (findIndex_from_spec p arr 0) as [H1 H2]. split.
  - intros Hr. apply H1. split; [done | lia].
  - intros Hall. destruct H2 as [Hr | (k & x & _ & Hk & Hx & _)]; [lia | done |].
    rewrite (Hall x) in Hx; [done|]. by apply list_elem_of_lookup_2 in Hk.
Qed.

Lemma findIndex_some {A} (p : A → bool) (arr : list A) :
  JS.findIndex p arr ≠ (-1)%Z →
  ∃ (k : nat) (x : A), JS.findIndex p arr = Z.of_nat k ∧ arr !! k = Some x ∧ p x = true.
Proof.
  unfold JS.findIndex. intros Hne.
  destruct (findIndex_from_spec p arr 0) as [_ H2].
  destruct H2 as [Hr | (k & x & Hr & Hk & Hx & _)]; [lia | done |].
  exists k, x. by rewrite Hr.
Qed.

Lemma degenerate_box (pr : Props) (containerHeight : Z) (x y : Q) (n : Note) :
  displayed pr n ∧ overlapsBox pr containerHeight x y x y n
  ↔ hitsNote pr containerHeight x y n = true.
Proof.
  rewrite hitsNote_spec. unfold overlapsBox, inRectangle.
  rewrite !Math_min_same, !Math_max_same. tauto.
Qed.

Lemma point_box_member (pr : Props) (containerHeight : Z) (x y : Q) (i : nat) :
  i ∈ findNotesInRect pr containerHeight x y x y
  ↔ ∃ n, notes pr !! i = Some n ∧ hitsNote pr containerHeight x y n = true.
Proof.
  rewrite findNotesInRect_spec. split.
  - intros (n & Hi & Hd & Ho). exists n. split; [done|]. by apply degenerate_box.
  - intros (n & Hi & Hh). exists n. split; [done|]. by apply degenerate_box.
Qed.

Lemma point_box_empty (pr : Props) (containerHeight : Z) (x y : Q) :
  findNoteAtPosition pr containerHeight x y = (-1)%Z
  ↔ findNotesInRect pr containerHeight x y x y = ∅.
Proof.
  unfold findNoteAtPosition. rewrite findIndex_none. split.
  - intros Hall. apply set_eq. intros i. rewrite point_box_member. split.
    + intros (n & Hi & Hh). rewrite (Hall n) in Hh; [done|].
      by apply list_elem_of_lookup_2 in Hi.
    + intros Hi. by apply not_elem_of_empty in Hi.
  - intros Hempty n Hn. destruct (hitsNote pr containerHeight x y n) eqn:E; [|done].
    apply list_elem_of_lookup_1 in Hn as [i Hi].
    assert (Hin : i ∈ findNotesInRect pr containerHeight x y x y)
      by (apply point_box_member; by exists n).
    rewrite Hempty in Hin. by apply not_elem_of_empty in Hin.
Qed.

(** X11. A box shrunk to a point selects what a click there would hit: the
    rectangle test at a single point accepts exactly the notes the point
    test accepts, so it is empty exactly when the point test finds no note,
    and it contains the note the point test returns. *)
Theorem point_and_box_agree (pr : Props) (containerHeight : Z) (x y : Q) :
  (∀ i, i ∈ findNotesInRect pr containerHeight x y x y
        ↔ ∃ n, notes pr !! i = Some n ∧ hitsNote pr containerHeight x y n = true)
  ∧ (findNoteAtPosition pr containerHeight x y = (-1)%Z
     ↔ findNotesInRect pr containerHeight x y x y = ∅)
  ∧ (findNoteAtPosition pr containerHeight x y = (-1)%Z
     ∨ Z.to_nat (findNoteAtPosition pr containerHeight x y)
       ∈ findNotesInRect pr containerHeight x y x y).
Proof.
  split; [intros i; apply point_box_member|]. split; [apply point_box_empty|].
  destruct (decide (findNoteAtPosition pr containerHeight x y = (-1)%Z)) as [|Hne];
    [by left | right].
  unfold findNoteAtPosition in *.
  destruct (findIndex_some _ _ Hne) as (k & n & -> & Hk & Hn).
  rewrite Nat2Z.id. apply point_box_member. by exists n.
Qed.

(** The seek ratio of a release is a fraction of the duration. *)
Lemma seekRatio_range (v : Q) :
  0 <= JS.Math_max 0 (JS.Math_min 1 v) ∧ JS.Math_max 0 (JS.Math_min 1 v) <= 1.
Proof.
  split; [apply Math_max_lower_l|].
  apply Math_max_upper; [discriminate | apply Math_min_upper_l].
Qed.

Lemma seekRatio_inside (v : Q) : 0 <= v → v <= 1 → JS.Math_max 0 (JS.Math_min 1 v) == v.
Proof.
  intros H0 H1. unfold JS.Math_max, JS.Math_min.
  destruct (Qle_bool 1 v) eqn:E1.
  - apply Qle_bool_iff in E1. simpl. lra.
  - apply Qle_bool_iff in H0. by rewrite H0.
Qed.

(** X12. A click on empty space (press and release at a point where the
    point test finds no note) clears the selection and ends the drag; when
    a transport with a positive duration exists it is asked to seek to a
    ratio in [0, 1], which is clickTime / duration when the click time lies
    within the duration, and the displayed time becomes the click time. *)
Theorem click_on_empty_space (pr : Props) (containerHeight : Z) (onOffsetChange playhead : bool)
    (e : MouseEvent) (ui : Pointer) (ws : option Q) :
  findNoteAtPosition pr containerHeight (px (getCanvasPosition e)) (py (getCanvasPosition e))
  = (-1)%Z →
  let pressed := handleMouseDown pr containerHeight onOffsetChange e ui in
  let released := handleMouseUp pr containerHeight ws playhead (fst pressed) in
  let clickTime := px (getCanvasPosition e) / pixelsPerSecond pr in
  snd pressed = None
  ∧ fst released
    = {| selectedNoteIndices := ∅; dragStart := None; dragEnd := None; isDragging := false |}
  ∧ match ws with
    | Some duration =>
        if JS.Qltb 0 duration then
          setCurrentTime (snd released) = Some clickTime
          ∧ ∃ r, seekTo (snd released) = Some r ∧ 0 <= r ∧ r <= 1
                 ∧ (0 <= clickTime / duration → clickTime / duration <= 1 →
                    r == clickTime / duration)
        else snd released = noSeek
    | None => snd released = noSeek
    end.
Proof.
  intros Hmiss pressed released clickTime.
  apply point_box_empty in Hmiss as Hnone.
  assert (Hp : pressed = ({| selectedNoteIndices := selectedNoteIndices ui;
                             dragStart := Some (getCanvasPosition e);
                             dragEnd := Some (getCanvasPosition e);
                             isDragging := true |}, None)).
  { subst pressed. unfold handleMouseDown. rewrite Hmiss. simpl.
    by rewrite andb_false_r. }
  subst released. rewrite Hp. unfold handleMouseUp. cbn [fst snd isDragging dragStart dragEnd].
  rewrite Hnone. rewrite size_empty. cbn [Nat.ltb Nat.leb fst snd].
  split; [done|]. split; [done|].
  destruct ws as [duration|]; [|done].
  destruct (JS.Qltb 0 duration); [|done]. cbn [setCurrentTime seekTo].
  split; [done|]. eexists. split; [done|].
  destruct (seekRatio_range (px (getCanvasPosition e) / pixelsPerSecond pr / duration)) as [H0 H1].
  split; [done|]. split; [done|]. apply seekRatio_inside.
Qed.

Lemma click_on_empty_space_witness :
  let pr := mkProps [mkNote 60 1 (1 # 10) None] 100 120 0 "1/8" true in
  let e := mkMouse 300 200 false false false 0 0 (Some (0, 0)) in
  let ui := mkPointer {[0%nat]} None None false in
  let pressed := handleMouseDown pr 500 true e ui in
  let released := handleMouseUp pr 500 (Some 10) true (fst pressed) in
  let clickTime := px (getCanvasPosition e) / pixelsPerSecond pr in
  snd pressed = None
  ∧ fst released
    = {| selectedNoteIndices := ∅; dragStart := None; dragEnd := None; isDragging := false |}
  ∧ (setCurrentTime (snd released) = Some clickTime
     ∧ ∃ r, seekTo (snd released) = Some r ∧ 0 <= r ∧ r <= 1
            ∧ (0 <= clickTime / 10 → clickTime / 10 <= 1 → r == clickTime / 10)).
Proof.
  intros pr e ui.
  apply (click_on_empty_space pr 500 true true e ui (Some 10)). reflexivity.
Defined.

(** X13. Ctrl/Cmd+click on a note toggles that note alone: its membership
    in the selection flips, every other index keeps its membership, no drag
    starts, and a second Ctrl/Cmd+click on it restores the selection. *)
Theorem ctrl_click_toggles (pr : Props) (containerHeight : Z) (onOffsetChange : bool)
    (e : MouseEvent) (ui : Pointer) (k : nat) :
  findNoteAtPosition pr containerHeight (px (getCanvasPosition e)) (py (getCanvasPosition e))
  = Z.of_nat k →
  shiftKey e && onOffsetChange = false →
  m_ctrlKey e || m_metaKey e = true →
  let once := fst (handleMouseDown pr containerHeight onOffsetChange e ui) in
  let twice := fst (handleMouseDown pr containerHeight onOffsetChange e once) in
  (k ∈ selectedNoteIndices once ↔ (k ∉ selectedNoteIndices ui))
  ∧ (∀ j, j ≠ k → (j ∈ selectedNoteIndices once ↔ j ∈ selectedNoteIndices ui))
  ∧ dragStart once = dragStart ui ∧ isDragging once = isDragging ui
  ∧ twice = ui.
Proof.
  intros Hhit Hshift Hctrl.
  assert (Hdown : ∀ u, fst (handleMouseDown pr containerHeight onOffsetChange e u)
    = {| selectedNoteIndices :=
           if decide (k ∈ selectedNoteIndices u)
           then selectedNoteIndices u ∖ {[k]} else {[k]} ∪ selectedNoteIndices u;
         dragStart := dragStart u; dragEnd := dragEnd u; isDragging := isDragging u |}).
  { intros u. unfold handleMouseDown. rewrite Hhit, Hshift, Hctrl.
    destruct (Z.eqb_spec (Z.of_nat k) (-1)); [lia|]. simpl. by rewrite Nat2Z.id. }
  intros once twice. subst twice once. rewrite !Hdown. simpl.
  split; [|split; [|split; [done|split; [done|]]]].
  - destruct (decide (k ∈ selectedNoteIndices ui)) as [Hin | Hnot].
    + rewrite elem_of_difference, elem_of_singleton. tauto.
    + rewrite elem_of_union, elem_of_singleton. tauto.
  - intros j Hj. destruct (decide (k ∈ selectedNoteIndices ui)).
    + rewrite elem_of_difference, elem_of_singleton. tauto.
    + rewrite elem_of_union, elem_of_singleton. tauto.
  - destruct ui as [sel ds de dr]. simpl. f_equal.
    destruct (decide (k ∈ sel)) as [Hin | Hnot].
    + destruct (decide (k ∈ sel ∖ {[k]})) as [Hk | _].
      { apply elem_of_difference in Hk as [_ Hk]. exfalso. apply Hk.
        by apply elem_of_singleton. }
      apply set_eq. intros j.
      rewrite elem_of_union, elem_of_difference, elem_of_singleton.
      destruct (decide (j = k)) as [-> | ?]; tauto.
    + destruct (decide (k ∈ {[k]} ∪ sel)) as [_ | Hk].
      2:{ exfalso. apply Hk, elem_of_union. left. by apply elem_of_singleton. }
      apply set_eq. intros j.
      rewrite elem_of_difference, elem_of_union, elem_of_singleton.
      destruct (decide (j = k)) as [-> | ?]; tauto.
Qed.

Lemma ctrl_click_toggles_witness :
  let pr := mkProps [mkNote 60 1 (1 # 10) None] 100 120 0 "1/8" true in
  let e := mkMouse 105 (80 + noteY pr 500 (mkNote 60 1 (1 # 10) None)) false true false
                   0 0 (Some (0, 0)) in
  let ui := mkPointer ∅ None None false in
  let once := fst (handleMouseDown pr 500 true e ui) in
  let twice := fst (handleMouseDown pr 500 true e once) in
  (0%nat ∈ selectedNoteIndices once ↔ (0%nat ∉ selectedNoteIndices ui))
  ∧ (∀ j, j ≠ 0%nat → (j ∈ selectedNoteIndices once ↔ j ∈ selectedNoteIndices ui))
  ∧ dragStart once = dragStart ui ∧ isDragging once = isDragging ui
  ∧ twice = ui.
Proof.
  intros pr e ui.
  apply (ctrl_click_toggles pr 500 true e ui 0); reflexivity.
Defined.

End RectangleSelection.

(** ** More on the editing keys *)

Section EditingKeys.

Import PianoRoll.

Local Open Scope Q_scope.

Lemma filterUnselected_from_spec (sel : gset nat) (ns : list Note) : ∀ (i : nat) (x : Note),
  x ∈ filterUnselected_from sel ns i
  ↔ ∃ j, ((i + j)%nat ∉ sel) ∧ ns !! j = Some x.
Proof.
  induction ns as [|n ns IH]; intros i x; simpl.
  - split; [intros H; by apply elem_of_nil in H | intros (j & _ & Hj); by destruct j].
  - destruct (decide (i ∈ sel)) as [Hin | Hout].
    + rewrite IH. split.
      * intros (j & Hj & Hx). exists (S j). split; [|done].
        by replace (i + S j)%nat with (S i + j)%nat by lia.
      * intros (j & Hj & Hx). destruct j as [|j]; simpl in Hx.
        -- exfalso. apply Hj. by replace (i + 0)%nat with i by lia.
        -- exists j. split; [|done]. by replace (S i + j)%nat with (i + S j)%nat by lia.
    + rewrite elem_of_cons, IH. split.
      * intros [-> | (j & Hj & Hx)].
        -- exists 0%nat. split; [|done]. by replace (i + 0)%nat with i by lia.
        -- exists (S j). split; [|done].
           by replace (i + S j)%nat with (S i + j)%nat by lia.
      * intros (j & Hj & Hx). destruct j as [|j]; simpl in Hx.
        -- left. congruence.
        -- right. exists j. split; [|done].
           by replace (S i + j)%nat with (i + S j)%nat by lia.
Qed.

Lemma filterUnselected_from_sublist (sel : gset nat) (ns : list Note) : ∀ (i : nat),
  filterUnselected_from sel ns i `sublist_of` ns.
Proof.
  induction ns as [|n ns IH]; intros i; simpl; [done|].
  destruct (decide (i ∈ sel)).
  - by apply sublist_cons.
  - by apply sublist_skip.
Qed.

Lemma filterUnselected_from_all (ns : list Note) : ∀ (sel : gset nat) (i : nat),
  (∀ j, (j < length ns)%nat → (i + j)%nat ∈ sel) → filterUnselected_from sel ns i = [].
Proof.
  induction ns as [|n ns IH]; intros sel i Hall; simpl; [done|].
  destruct (decide (i ∈ sel)) as [_ | Hout].
  - apply IH. intros j Hj. replace (S i + j)%nat with (i + S j)%nat by lia.
    apply Hall. simpl. lia.
  - exfalso. apply Hout. replace i with (i + 0)%nat by lia. apply Hall. simpl. lia.
Qed.

(** X14. Delete and Backspace remove exactly the selected notes: the store
    passed on holds the notes at the unselected positions, in their old
    order, and the selection is cleared; after select-all the store passed
    on is empty. *)
Theorem delete_removes_selected (pr : Props) (sel : gset nat) (ctrl meta : bool) (k : string) :
  size sel ≠ 0%nat → onNotesChange pr = true → k = "Delete" ∨ k = "Backspace" →
  handleKeyDown pr sel (mkKey k ctrl meta)
  = {| selection := ∅; emitted := [filterUnselected sel (notes pr)] |}
  ∧ (∀ x, x ∈ filterUnselected sel (notes pr) ↔ ∃ i, (i ∉ sel) ∧ notes pr !! i = Some x)
  ∧ filterUnselected sel (notes pr) `sublist_of` notes pr
  ∧ filterUnselected (allIndices (notes pr)) (notes pr) = [].
Proof.
  intros Hsel Hcb Hk. split; [|split; [|split]].
  - unfold handleKeyDown. rewrite Hcb.
    destruct (Nat.eqb_spec (size sel) 0); [done|].
    destruct Hk as [-> | ->]; cbn; by rewrite andb_false_r.
  - intros x. unfold filterUnselected. by rewrite filterUnselected_from_spec.
  - apply filterUnselected_from_sublist.
  - apply filterUnselected_from_all. intros j Hj. by apply allIndices_spec.
Qed.

Lemma delete_removes_selected_witness :
  let pr := mkProps [mkNote 60 0 1 None; mkNote 62 1 1 None; mkNote 64 2 1 None]
                    100 120 0 "1/8" true in
  handleKeyDown pr {[1%nat]} (mkKey "Delete" false false)
  = {| selection := ∅; emitted := [filterUnselected {[1%nat]} (notes pr)] |}
  ∧ (∀ x, x ∈ filterUnselected {[1%nat]} (notes pr)
          ↔ ∃ i, (i ∉ ({[1%nat]} : gset nat)) ∧ notes pr !! i = Some x)
  ∧ filterUnselected {[1%nat]} (notes pr) `sublist_of` notes pr
  ∧ filterUnselected (allIndices (notes pr)) (notes pr) = [].
Proof.
  intros pr. apply (delete_removes_selected pr {[1%nat]} false false "Delete").
  - by rewrite size_singleton.
  - reflexivity.
  - by left.
Defined.

(** The snapped grid point is within half a step of the note. *)
Lemma Math_round_near (x : Q) :
  x - (1 # 2) <= inject_Z (JS.Math_round x) ∧ inject_Z (JS.Math_round x) <= x + (1 # 2).
Proof.
  unfold JS.Math_round.
  pose proof (Qfloor_le (x + (1 # 2))) as Hlo.
  pose proof (Qlt_floor (x + (1 # 2))) as Hhi.
  rewrite inject_Z_plus in Hhi. change (inject_Z 1) with 1 in Hhi. split; lra.
Qed.

(** X15. Quantize moves a note to the nearest grid point: at a positive
    tempo the quantized start of a note that starts at or after 0 is never
    negative, lies within half a subdivision step of the old start, and is
    either 0 or a grid point offset + k * step. *)
Theorem quantize_nearest (pr : Props) (n : Note) :
  0 < tempo pr → 0 <= startTime n →
  let step := secondsPerSubdiv pr in
  let t' := startTime (quantizeNote step (offset pr) n) in
  0 <= t'
  ∧ startTime n - step / 2 <= t' ∧ t' <= startTime n + step / 2
  ∧ (t' = 0 ∨ ∃ k : Z, t' = offset pr + inject_Z k * step).
Proof.
  intros Ht Hn step t'. assert (Hs : 0 < step) by by apply secondsPerSubdiv_pos.
  subst t'. rewrite quantizeNote_startTime.
  set (x := (startTime n - offset pr) / step).
  destruct (Math_round_near x) as [Hlo Hhi].
  set (k := JS.Math_round x) in *.
  assert (Hx : x * step == startTime n - offset pr).
  { subst x. field. lra. }
  assert (Hg1 : (x - (1 # 2)) * step <= inject_Z k * step)
    by (apply Qmult_le_compat_r; lra).
  assert (Hg2 : inject_Z k * step <= (x + (1 # 2)) * step)
    by (apply Qmult_le_compat_r; lra).
  assert (Hhalf : step / 2 == (1 # 2) * step) by field.
  unfold JS.Math_max. destruct (Qle_bool 0 (offset pr + inject_Z k * step)) eqn:E.
  - apply Qle_bool_iff in E. split; [done|]. split; [lra|]. split; [lra|].
    right. by exists k.
  - apply Qle_bool_false in E. split; [lra|]. split; [lra|]. split; [lra|]. by left.
Qed.

Lemma quantize_nearest_witness :
  let pr := mkProps [] 100 120 (1 # 10) "1/8" true in
  let n := mkNote 60 (37 # 100) 1 None in
  let step := secondsPerSubdiv pr in
  let t' := startTime (quantizeNote step (offset pr) n) in
  0 <= t'
  ∧ startTime n - step / 2 <= t' ∧ t' <= startTime n + step / 2
  ∧ (t' = 0 ∨ ∃ k : Z, t' = offset pr + inject_Z k * step).
Proof.
  intros pr n. apply (quantize_nearest pr n); [reflexivity | discriminate].
Defined.

(** X16. On the grid the arrow keys step and undo each other: for a note
    that sits on a grid point at or after 0, ArrowRight moves its start by
    exactly one subdivision step, and ArrowLeft after that brings the start
    back. *)
Theorem nudge_right_then_left (pr : Props) (n : Note) (k : Z) :
  0 < tempo pr → 0 <= startTime n →
  startTime n == offset pr + inject_Z k * secondsPerSubdiv pr →
  let step := secondsPerSubdiv pr in
  let right := nudgeNote 1 step (offset pr) n in
  startTime right == startTime n + step
  ∧ startTime (nudgeNote (-1) step (offset pr) right) == startTime n.
Proof.
  intros Ht Hn Hgrid step right. assert (Hs : 0 < step) by by apply secondsPerSubdiv_pos.
  fold step in Hgrid.
  assert (Hr : startTime right == startTime n + inject_Z 1 * step).
  { apply (nudgeNote_on_grid 1 k); [done | done |]. change (inject_Z 1) with 1. lra. }
  change (inject_Z 1) with 1 in Hr.
  split; [rewrite Hr; ring|].
  assert (Hl : startTime (nudgeNote (-1) step (offset pr) right)
               == startTime right + inject_Z (-1) * step).
  { apply (nudgeNote_on_grid (-1) (k + 1)); [done | |].
    - rewrite Hr, Hgrid, inject_Z_plus. change (inject_Z 1) with 1. ring.
    - rewrite Hr. change (inject_Z (-1)) with (-1 # 1). lra. }
  rewrite Hl, Hr. change (inject_Z (-1)) with (-1 # 1). ring.
Qed.

Lemma nudge_right_then_left_witness :
  let pr := mkProps [] 100 120 (1 # 10) "1/8" true in
  let n := mkNote 60 (6 # 10) 1 None in
  let step := secondsPerSubdiv pr in
  let right := nudgeNote 1 step (offset pr) n in
  startTime right == startTime n + step
  ∧ startTime (nudgeNote (-1) step (offset pr) right) == startTime n.
Proof.
  intros pr n. apply (nudge_right_then_left pr n 2); [reflexivity | discriminate | reflexivity].
Defined.







End EditingKeys.

(** ** The playhead and auto-scroll *)

Section Playhead.

Import PianoRoll.

Local Open Scope Q_scope.

(** X18. Auto-scroll keeps the playhead clear of the right edge: in a view
    at least 400 pixels wide, after a frame the playhead is at
    elapsed * pixelsPerSecond, it lies at least 200 pixels left of the right
    edge of the visible window, and the window has not moved backwards. *)
Theorem autoscroll_keeps_margin (pr : Props) (w : Transport) (v : View) :
  400 <= clientWidth v →
  let v' := updatePlayhead pr true (Some w) v in
  playheadLeft v' = getCurrentTime w * pixelsPerSecond pr
  ∧ playheadLeft v' <= scrollLeft v' + clientWidth v' - 200
  ∧ scrollLeft v <= scrollLeft v'
  ∧ (scrollLeft v' = scrollLeft v ∨ scrollLeft v' = playheadLeft v' - 200).
Proof.
  intros Hw v'. subst v'. unfold updatePlayhead. simpl.
  set (x := getCurrentTime w * pixelsPerSecond pr).
  destruct (JS.Qltb (scrollLeft v + clientWidth v - 200) x) eqn:E.
  - apply Qltb_lt in E. split; [done|]. split; [lra|]. split; [lra | by right].
  - split; [done|].
    assert (Hle : x <= scrollLeft v + clientWidth v - 200).
    { apply Qnot_lt_le. intros Hlt. apply Qltb_lt in Hlt. congruence. }
    split; [done|]. split; [lra | by left].
Qed.

Lemma autoscroll_keeps_margin_witness :
  let pr := mkProps [] 100 120 0 "1/8" true in
  let w := mkTransport 12 true in
  let v := mkView 0 0 0 800 ∅ false in
  let v' := updatePlayhead pr true (Some w) v in
  playheadLeft v' = getCurrentTime w * pixelsPerSecond pr
  ∧ playheadLeft v' <= scrollLeft v' + clientWidth v' - 200
  ∧ scrollLeft v <= scrollLeft v'
  ∧ (scrollLeft v' = scrollLeft v ∨ scrollLeft v' = playheadLeft v' - 200).
Proof.
  intros pr w v. apply (autoscroll_keeps_margin pr w v). discriminate.
Defined.

End Playhead.

(** ** MusicXML export *)

Section MusicXmlExport.

Import App.

Local Open Scope Q_scope.

Lemma mod12_cases (r : Z) :
  (0 ≤ r < 12)%Z →
  (r = 0 ∨ r = 1 ∨ r = 2 ∨ r = 3 ∨ r = 4 ∨ r = 5 ∨ r = 6 ∨ r = 7
   ∨ r = 8 ∨ r = 9 ∨ r = 10 ∨ r = 11)%Z.
Proof. lia. Qed.

(** X19. The pitch written to MusicXML reads back as the MIDI number: for
    every non-negative MIDI number the step, alteration (0 or 1) and octave
    of [midiToPitch] stand for that number, middle C (60) being C4; a
    negative number that is not a multiple of 12 gets no step at all. *)
Theorem midiToPitch_round_trip (midi : Z) :
  (0 ≤ midi)%Z →
  pitchToMidi (midiToPitch midi) = Some midi
  ∧ (p_alter (midiToPitch midi) = Some 0%Z ∨ p_alter (midiToPitch midi) = Some 1%Z)
  ∧ midiToPitch 60 = mkXmlPitch (Some "C"%string) (Some 0%Z) 4
  ∧ (Z.rem (- midi) 12 ≠ 0%Z → p_step (midiToPitch (- midi)) = None).
Proof.
  intros Hpos. split; [|split; [|split; [done|]]].
  - unfold pitchToMidi, midiToPitch. cbn [p_step p_alter p_octave].
    rewrite Z.rem_mod_nonneg by lia.
    pose proof (Z.mod_pos_bound midi 12 eq_refl) as Hr.
    pose proof (Z.div_mod midi 12) as Hdm.
    set (r := (midi `mod` 12)%Z) in *.
    destruct (mod12_cases r Hr) as [E|[E|[E|[E|[E|[E|[E|[E|[E|[E|[E|E]]]]]]]]]]];
      rewrite E in *; cbn; f_equal; lia.
  - unfold midiToPitch. cbn [p_alter]. rewrite Z.rem_mod_nonneg by lia.
    pose proof (Z.mod_pos_bound midi 12 eq_refl) as Hr.
    set (r := (midi `mod` 12)%Z) in *.
    destruct (mod12_cases r Hr) as [E|[E|[E|[E|[E|[E|[E|[E|[E|[E|[E|E]]]]]]]]]]];
      rewrite E; cbn; auto.
  - intros Hne. unfold midiToPitch. cbn [p_step]. unfold JS.index.
    assert (Hneg : (Z.rem (- midi) 12 ≤ 0)%Z).
    { destruct (Z.eq_dec midi 0%Z) as [-> | ?]; [done|].
      apply Z.rem_nonpos; lia. }
    destruct (Z.ltb_spec (Z.rem (- midi) 12) 0%Z) as [_ | Hge]; [done | lia].
Qed.

Lemma midiToPitch_round_trip_witness :
  pitchToMidi (midiToPitch 61) = Some 61%Z
  ∧ (p_alter (midiToPitch 61) = Some 0%Z ∨ p_alter (midiToPitch 61) = Some 1%Z)
  ∧ midiToPitch 60 = mkXmlPitch (Some "C"%string) (Some 0%Z) 4
  ∧ (Z.rem (- 61) 12 ≠ 0%Z → p_step (midiToPitch (- 61)) = None).
Proof. apply (midiToPitch_round_trip 61). lia. Defined.

Lemma secondsPerBeat_pos (tempoBpm : Q) : 0 < tempoBpm → 0 < 60 / tempoBpm.
Proof.
  intros Ht. unfold Qdiv. apply Qmult_lt_0_compat; [reflexivity | by apply Qinv_lt_0_compat].
Qed.

(** X20. Seconds convert to MusicXML divisions exactly on the tick grid: at
    a positive tempo the time of [j] ticks (each 1/480 of a beat) converts
    back to [j], and the span of one measure is 1920 divisions, the duration
    written for a whole-measure rest. *)
Theorem secondsToDivisions_exact (tempoBpm offsetS : Q) (j m : Z) :
  0 < tempoBpm →
  secondsToDivisions (60 / tempoBpm) (inject_Z j * (60 / tempoBpm) / 480) = j
  ∧ secondsToDivisions (60 / tempoBpm)
      (measureEnd tempoBpm offsetS m - measureStart tempoBpm offsetS m)
    = (divisions * beatsPerBar)%Z.
Proof.
  intros Ht. pose proof (secondsPerBeat_pos tempoBpm Ht) as Hs.
  assert (Hne : ¬ tempoBpm == 0) by lra.
  unfold secondsToDivisions, measureEnd, divisions, beatsPerBar. split.
  - rewrite <- (Math_round_inject_Z j) at 2. apply Math_round_comp.
    change (inject_Z 480) with 480. field. done.
  - rewrite <- (Math_round_inject_Z (480 * 4)). apply Math_round_comp.
    change (inject_Z 480) with 480. change (inject_Z 4) with 4.
    change (inject_Z (480 * 4)) with 1920. field. done.
Qed.

Lemma secondsToDivisions_exact_witness :
  secondsToDivisions (60 / 120) (inject_Z 240 * (60 / 120) / 480) = 240%Z
  ∧ secondsToDivisions (60 / 120) (measureEnd 120 (1 # 2) 3 - measureStart 120 (1 # 2) 3)
    = (divisions * beatsPerBar)%Z.
Proof. apply (secondsToDivisions_exact 120 (1 # 2) 240 3). reflexivity. Defined.










Lemma chordElements_notes (spb : Q) (l : list Note) : ∀ (idx : nat),
  omap xmlNoteOf (chordElements spb l idx) = exported spb <$> l.
Proof. induction l as [|n l IH]; intros idx; simpl; [done | by rewrite IH]. Qed.

Lemma emitChord_notes (spb mStart : Q) (groups : list (Z * list Note))
    (acc : list XmlElement * Z) (key : Z) :
  omap xmlNoteOf (fst (emitChord spb mStart groups acc key))
  = omap xmlNoteOf (fst acc) ++ (exported spb <$> default [] (mapGet key groups)).
Proof.
  unfold emitChord. destruct (mapGet key groups) as [[|first others]|]; simpl;
    try by rewrite app_nil_r.
  rewrite !omap_app. f_equal.
  destruct (snd acc <? _)%Z; simpl; by rewrite chordElements_notes.
Qed.

Lemma emitChords_notes (spb mStart : Q) (groups : list (Z * list Note)) (ks : list Z) :
  ∀ (acc : list XmlElement * Z),
  omap xmlNoteOf (fst (foldl (emitChord spb mStart groups) acc ks))
  = omap xmlNoteOf (fst acc)
    ++ (ks ≫= λ k, exported spb <$> default [] (mapGet k groups)).
Proof.
  induction ks as [|k ks IH]; intros acc; simpl; [by rewrite app_nil_r|].
  by rewrite IH, emitChord_notes, <- app_assoc.
Qed.

Lemma insertKey_perm (k : Z) (l : list Z) : insertKey k l ≡ₚ k :: l.
Proof.
  induction l as [|j l IH]; simpl; [done|].
  destruct (j <=? k)%Z; [|done]. rewrite IH. apply Permutation_swap.
Qed.

Lemma sortKeys_perm (ks : list Z) : sortKeys ks ≡ₚ ks.
Proof.
  unfold sortKeys. rewrite <- (app_nil_l ks) at 2. generalize (@nil Z).
  induction ks as [|k ks IH]; intros acc; simpl; [by rewrite app_nil_r|].
  rewrite IH, insertKey_perm. simpl. apply Permutation_middle.
Qed.

(** The map keeps one entry per key and never loses a note. *)
Lemma mapPush_keys (key : Z) (n : Note) (m : list (Z * list Note)) (k : Z) :
  k ∈ (fst <$> mapPush key n m) ↔ k = key ∨ k ∈ (fst <$> m).
Proof.
  induction m as [|[j g] m IH]; simpl.
  - rewrite list_elem_of_singleton. split; [auto | intros [?|H]; [done | by apply elem_of_nil in H]].
  - destruct (Z.eqb_spec j key) as [-> | Hne]; simpl.
    + rewrite elem_of_cons. tauto.
    + rewrite !elem_of_cons, IH. tauto.
Qed.

Lemma mapPush_NoDup (key : Z) (n : Note) (m : list (Z * list Note)) :
  NoDup (fst <$> m) → NoDup (fst <$> mapPush key n m).
Proof.
  induction m as [|[j g] m IH]; simpl; intros Hnd.
  - apply NoDup_singleton.
  - apply NoDup_cons in Hnd as [Hj Hnd].
    destruct (Z.eqb_spec j key) as [-> | Hne]; simpl.
    + by apply NoDup_cons.
    + apply NoDup_cons. split; [|by apply IH].
      rewrite mapPush_keys. intros [? | ?]; done.
Qed.

Lemma mapPush_notes (key : Z) (n : Note) (m : list (Z * list Note)) :
  (mapPush key n m ≫= snd) ≡ₚ (m ≫= snd) ++ [n].
Proof.
  induction m as [|[j g] m IH]; [done|]. cbn [mapPush].
  destruct (Z.eqb_spec j key) as [-> | Hne].
  - rewrite !bind_cons. cbn [snd]. rewrite <- !app_assoc.
    apply Permutation_app_head. apply Permutation_app_comm.
  - rewrite !bind_cons, IH. cbn [snd]. by rewrite app_assoc.
Qed.

Lemma notesByTime_spec (ms : list Note) :
  NoDup (fst <$> notesByTime ms) ∧ (notesByTime ms ≫= snd) ≡ₚ ms.
Proof.
  unfold notesByTime.
  assert (H : ∀ m, NoDup (fst <$> m) →
    NoDup (fst <$> foldl (λ m n, mapPush (timeKey n) n m) m ms)
    ∧ (foldl (λ m n, mapPush (timeKey n) n m) m ms ≫= snd) ≡ₚ (m ≫= snd) ++ ms).
  { induction ms as [|n ms IH]; intros m Hnd; simpl.
    - by rewrite app_nil_r.
    - destruct (IH (mapPush (timeKey n) n m) (mapPush_NoDup _ _ _ Hnd)) as [H1 H2].
      split; [done|]. rewrite H2, mapPush_notes. by rewrite <- app_assoc. }
  destruct (H [] (NoDup_nil_2)) as [H1 H2]. split; [done|]. by rewrite H2.
Qed.

Lemma mapGet_keys (m : list (Z * list Note)) :
  NoDup (fst <$> m) →
  (fst <$> m) ≫= (λ k, default [] (mapGet k m)) = m ≫= snd.
Proof.
  induction m as [|[j g] m IH]; intros Hnd; [done|].
  apply NoDup_cons in Hnd as [Hj Hnd].
  change (fst <$> (j, g) :: m) with (j :: (fst <$> m)).
  rewrite !bind_cons. simpl. rewrite Z.eqb_refl. simpl. f_equal.
  rewrite <- (IH Hnd). clear IH.
  assert (Hext : ∀ ks : list Z, j ∉ ks →
    ks ≫= (λ k, default [] (if (j =? k)%Z then Some g else mapGet k m))
    = ks ≫= (λ k, default [] (mapGet k m))).
  { induction ks as [|k ks IHk]; intros Hk; [done|].
    rewrite !bind_cons. apply not_elem_of_cons in Hk as [Hne Hk].
    destruct (Z.eqb_spec j k); [done|]. by rewrite IHk. }
  by apply Hext.
Qed.

(** X22. Within a measure every note is written exactly once: the pitched
    elements of a measure carry, up to order, the pitches and durations of
    the notes that start in it, whatever the chord grouping does, and a
    measure in which no note starts holds a single whole-measure rest of
    1920 divisions after the header. *)
Theorem measure_writes_each_note (tempoBpm offsetS : Q) (ns : list Note) (m : Z) :
  omap xmlNoteOf (measureContent tempoBpm offsetS ns m)
  ≡ₚ exported (60 / tempoBpm) <$> measureNotes tempoBpm offsetS ns m
  ∧ (measureNotes tempoBpm offsetS ns m = [] →
     measureContent tempoBpm offsetS ns m
     = (if (m =? 0)%Z then [XmlAttributes 480 4 tempoBpm] else []) ++ [XmlRest 1920 true]).
Proof.
  unfold measureContent. set (ms := measureNotes tempoBpm offsetS ns m).
  set (header := if (m =? 0)%Z then _ else _).
  assert (Hh : omap xmlNoteOf header = []) by (subst header; by destruct (m =? 0)%Z).
  split.
  - destruct ms as [|n0 ms0] eqn:E.
    + rewrite omap_app, Hh. done.
    + rewrite <- E. clear E. rewrite omap_app, Hh, emitChords_notes. simpl.
      destruct (notesByTime_spec ms) as [Hnd Hnotes].
      rewrite sortKeys_perm.
      transitivity (exported (60 / tempoBpm) <$> (notesByTime ms ≫= snd));
        [|by rewrite Hnotes].
      rewrite <- (mapGet_keys _ Hnd). clear.
      induction (fst <$> notesByTime ms) as [|k ks IH]; [done|].
      rewrite !bind_cons, fmap_app. by rewrite IH.
  - intros Hempty. by rewrite Hempty.
Qed.

End MusicXmlExport.

(** ** Grid lines *)

Section GridLines.

Import PianoRoll.

Local Open Scope Q_scope.

(** The counter of the last grid point that is not past the end. *)
Lemma grid_last (pr : Props) (k : Z) :
  0 < secondsPerSubdiv pr →
  gridTime pr k <= rollDuration (notes pr) + 4
  ↔ (k ≤ Qfloor ((rollDuration (notes pr) + 4 - offset pr) / secondsPerSubdiv pr))%Z.
Proof.
  intros Hs. unfold gridTime.
  set (sps := secondsPerSubdiv pr) in *. set (D := rollDuration (notes pr) + 4).
  set (x := (D - offset pr) / sps).
  assert (Hx : x * sps == D - offset pr) by (subst x; field; lra).
  pose proof (Qfloor_le x) as Hlo. pose proof (Qlt_floor x) as Hhi.
  split.
  - intros Ht.
    assert (Hk : inject_Z k <= x).
    { apply (Qmult_le_r _ _ sps); [done|]. rewrite Hx. lra. }
    assert (H : inject_Z k < inject_Z (Qfloor x + 1)) by lra.
    rewrite <- Zlt_Qlt in H. lia.
  - intros Hk. rewrite Zle_Qle in Hk.
    assert (H : inject_Z k * sps <= x * sps) by (apply Qmult_le_compat_r; lra).
    lra.
Qed.

Lemma gridLoop_enough (pr : Props) :
  0 < secondsPerSubdiv pr →
  let kmax := Qfloor ((rollDuration (notes pr) + 4 - offset pr) / secondsPerSubdiv pr) in
  ∀ (n : nat) (s : Z), (kmax - s + 1 ≤ Z.of_nat n)%Z →
    gridLoop (S n) pr s
    = Some (gridLine pr
              <$> List.filter (λ k, negb (JS.Qltb (gridTime pr k) 0)) (seqZ s (kmax - s + 1))).
Proof.
  intros Hs kmax n. induction n as [|n IH]; intros s Hn.
  - cbn [gridLoop]. fold (gridTime pr s).
    destruct (JS.Qltb (rollDuration (notes pr) + 4) (gridTime pr s)) eqn:E.
    + by rewrite seqZ_nil by lia.
    + exfalso. assert (Hle : gridTime pr s <= rollDuration (notes pr) + 4).
      { apply Qnot_lt_le. intros Hlt. apply Qltb_lt in Hlt. congruence. }
      apply grid_last in Hle; [|done]. fold kmax in Hle. lia.
  - change (gridLoop (S (S n)) pr s)
      with (let t := offset pr + inject_Z s * secondsPerSubdiv pr in
            if JS.Qltb (rollDuration (notes pr) + 4) t then Some []
            else if JS.Qltb t 0 then gridLoop (S n) pr (s + 1)
            else match gridLoop (S n) pr (s + 1) with
                 | Some rest => Some (gridLine pr s :: rest)
                 | None => None
                 end).
    cbv zeta. fold (gridTime pr s).
    destruct (JS.Qltb (rollDuration (notes pr) + 4) (gridTime pr s)) eqn:E.
    + apply Qltb_lt in E.
      assert (Hgt : (kmax < s)%Z).
      { destruct (Z_lt_le_dec kmax s) as [|Hle]; [done|].
        apply grid_last in Hle; [|done]. lra. }
      by rewrite seqZ_nil by lia.
    + assert (Hle : gridTime pr s <= rollDuration (notes pr) + 4).
      { apply Qnot_lt_le. intros Hlt. apply Qltb_lt in Hlt. congruence. }
      apply grid_last in Hle; [|done]. fold kmax in Hle.
      rewrite IH by lia.
      rewrite (seqZ_cons s) by lia. cbn [List.filter].
      replace (Z.succ s) with (s + 1)%Z by lia.
      replace (Z.pred (kmax - s + 1)) with (kmax - (s + 1) + 1)%Z by lia.
      by destruct (JS.Qltb (gridTime pr s) 0).
Qed.

(** X23. The grid loop ends and draws exactly the grid points within the
    roll: at a positive tempo, with enough rounds the loop returns, and the
    lines it draws are those of the grid points offset + k * step that lie
    between 0 and the end of the last note plus 4 seconds, each at
    x = time * pixelsPerSecond; this includes the points before the
    downbeat. *)
Theorem grid_lines_cover (pr : Props) :
  0 < tempo pr →
  ∃ (fuel0 : nat) (lines : list GridLine),
    (∀ fuel, (fuel0 ≤ fuel)%nat → gridLines fuel pr = Some lines)
    ∧ (∀ k : Z, k ∈ (gl_subdiv <$> lines)
                ↔ 0 <= gridTime pr k ∧ gridTime pr k <= rollDuration (notes pr) + 4)
    ∧ (∀ l, l ∈ lines → gl_x l = gridTime pr (gl_subdiv l) * pixelsPerSecond pr).
Proof.
  intros Ht. pose proof (secondsPerSubdiv_pos pr Ht) as Hs.
  set (kmax := Qfloor ((rollDuration (notes pr) + 4 - offset pr) / secondsPerSubdiv pr)).
  set (s0 := (- (Qceiling (offset pr / secondsPerSubdiv pr) + 1))%Z).
  set (ks := List.filter (λ k, negb (JS.Qltb (gridTime pr k) 0)) (seqZ s0 (kmax - s0 + 1))).
  exists (S (Z.to_nat (kmax - s0 + 1))), (gridLine pr <$> ks).
  split; [|split].
  - intros fuel Hfuel. destruct fuel as [|n]; [lia|].
    unfold gridLines. fold s0. subst ks kmax. apply gridLoop_enough; [done|]. lia.
  - intros k. rewrite <- list_fmap_compose.
    assert (Hid : gl_subdiv ∘ gridLine pr = id) by done.
    rewrite Hid, list_fmap_id. subst ks.
    rewrite list_elem_of_In, filter_In, <- list_elem_of_In, elem_of_seqZ, negb_true_iff.
    assert (Hneg : JS.Qltb (gridTime pr k) 0 = false ↔ 0 <= gridTime pr k).
    { split.
      - intros E. apply Qnot_lt_le. intros Hlt. apply Qltb_lt in Hlt. congruence.
      - intros Hle. destruct (JS.Qltb (gridTime pr k) 0) eqn:E; [|done].
        apply Qltb_lt in E. lra. }
    rewrite Hneg, (grid_last pr k Hs). fold kmax. split.
    + intros [[_ Hk] Hpos]. split; [done | lia].
    + intros [Hpos Hk]. split; [|done]. split; [|lia].
      (* a grid point at or after 0 is no earlier than the loop's start *)
      unfold gridTime in Hpos. set (sps := secondsPerSubdiv pr) in *.
      pose proof (Qle_ceiling (offset pr / sps)) as Hc.
      assert (Ho : offset pr / sps * sps == offset pr) by (field; lra).
      assert (H1 : - (offset pr / sps) <= inject_Z k).
      { apply (Qmult_le_r _ _ sps); [done|]. lra. }
      assert (H2 : inject_Z (- (Qceiling (offset pr / sps))) <= inject_Z k).
      { rewrite inject_Z_opp. lra. }
      rewrite <- Zle_Qle in H2. subst s0. lia.
  - intros l Hl. apply list_elem_of_fmap in Hl as (k & -> & _). done.
Qed.

Lemma grid_lines_cover_witness :
  let pr := mkProps [mkNote 60 0 1 None] 100 120 (3 # 10) "1/4" true in
  ∃ (fuel0 : nat) (lines : list GridLine),
    (∀ fuel, (fuel0 ≤ fuel)%nat → gridLines fuel pr = Some lines)
    ∧ (∀ k : Z, k ∈ (gl_subdiv <$> lines)
                ↔ 0 <= gridTime pr k ∧ gridTime pr k <= rollDuration (notes pr) + 4)
    ∧ (∀ l, l ∈ lines → gl_x l = gridTime pr (gl_subdiv l) * pixelsPerSecond pr).
Proof. intros pr. apply (grid_lines_cover pr). reflexivity. Defined.

End GridLines.

(** ** The notation panel *)

Section NotationPanel.

Import App.

Lemma insertKey_sorted (k : Z) (l : list Z) :
  Sorted Z.le l → Sorted Z.le (insertKey k l).
Proof.
  induction 1 as [|j l Hl IH Hhd]; simpl; [by repeat constructor|].
  destruct (Z.leb_spec j k) as [Hjk | Hkj].
  - constructor; [done|].
    destruct l as [|i l]; simpl.
    + by constructor.
    + inversion Hhd; subst. destruct (Z.leb_spec i k); by constructor.
  - constructor; [by constructor|]. constructor. lia.
Qed.

Lemma sortKeys_sorted (ks : list Z) : Sorted Z.le (sortKeys ks).
Proof.
  unfold sortKeys.
  assert (H : ∀ acc, Sorted Z.le acc → Sorted Z.le (foldl (λ acc k, insertKey k acc) acc ks)).
  { induction ks as [|k ks IH]; intros acc Hacc; simpl; [done|].
    apply IH. by apply insertKey_sorted. }
  apply H. constructor.
Qed.

(** X24. The staves split the active pitches: every active pitch is drawn
    on exactly one staff, the treble staff holds those from 60 up and the
    bass staff those below 60, and each staff lists its pitches in ascending
    order. *)
Theorem staves_split_active (activeNotes : list Z) :
  Notation.trebleNotes activeNotes ++ Notation.bassNotes activeNotes ≡ₚ activeNotes
  ∧ Forall (λ n, 60 ≤ n) (Notation.trebleNotes activeNotes)
  ∧ Forall (λ n, n < 60) (Notation.bassNotes activeNotes)
  ∧ Sorted Z.le (Notation.trebleNotes activeNotes)
  ∧ Sorted Z.le (Notation.bassNotes activeNotes).
Proof.
  unfold Notation.trebleNotes, Notation.bassNotes.
  split; [|split; [|split; [|split]]].
  - rewrite !sortKeys_perm.
    induction activeNotes as [|n l IH]; simpl; [done|].
    destruct (Z.leb_spec 60 n); destruct (Z.ltb_spec n 60); try lia; simpl.
    + by rewrite IH.
    + rewrite <- Permutation_middle. by rewrite IH.
  - rewrite sortKeys_perm. apply Forall_forall. intros n Hn.
    apply list_elem_of_In, filter_In in Hn as [_ Hn]. by apply Z.leb_le.
  - rewrite sortKeys_perm. apply Forall_forall. intros n Hn.
    apply list_elem_of_In, filter_In in Hn as [_ Hn]. by apply Z.ltb_lt.
  - apply sortKeys_sorted.
  - apply sortKeys_sorted.
Qed.

(** X25. The notation panel latches the last chord: after any run of
    frames [displayNotes] is the active set of the last frame in which some
    note was active, and it is unchanged if there was no such frame, so the
    panel is never emptied by silence. *)
Theorem displayNotes_latch (frames : list (list Z)) (displayNotes : list Z) :
  displayAfter frames displayNotes
  = default displayNotes (last (List.filter (λ f, 0 <? Z.of_nat (length f)) frames))
  ∧ (displayNotes ≠ [] → displayAfter frames displayNotes ≠ []).
Proof.
  assert (E : ∀ d, displayAfter frames d
                   = default d (last (List.filter (λ f, 0 <? Z.of_nat (length f)) frames))).
  { unfold displayAfter. induction frames as [|f frames IH]; intros d; simpl; [done|].
    rewrite IH. unfold updateDisplayNotes.
    destruct (0 <? Z.of_nat (length f)) eqn:Ef; [|done].
    rewrite last_cons. by destruct (last _). }
  split; [apply E|].
  intros Hne. rewrite E.
  destruct (last _) as [f|] eqn:El; simpl; [|done].
  apply last_Some in El as [l' El].
  assert (Hf : In f (List.filter (λ f, 0 <? Z.of_nat (length f)) frames)).
  { rewrite El. apply in_or_app. right. by left. }
  apply filter_In in Hf as [_ Hf]. apply Z.ltb_lt in Hf. by destruct f.
Qed.

Lemma displayNotes_latch_witness :
  displayAfter [[60; 64]; []; [67]; []] [48]
  = default [48] (last (List.filter (λ f, 0 <? Z.of_nat (length f)) [[60; 64]; []; [67]; []]))
  ∧ displayAfter [[60; 64]; []; [67]; []] [48] ≠ [].
Proof.
  destruct (displayNotes_latch [[60; 64]; []; [67]; []] [48]) as [H1 H2].
  split; [exact H1 | apply H2; discriminate].
Defined.

End NotationPanel.

(** ** Keyboard layout *)

Section KeyboardLayout.

Import PianoRoll.

Lemma countStep_fold (l : list Z) : ∀ acc,
  foldl (λ count n, if isBlackKey n then count else count + 1) acc l
  = acc + foldl (λ count n, if isBlackKey n then count else count + 1) 0 l.
Proof.
  induction l as [|n l IH]; intros acc; simpl; [lia|].
  rewrite IH, (IH (if isBlackKey n then 0 else 0 + 1)).
  destruct (isBlackKey n); lia.
Qed.

Lemma countWhiteKeys_split (lo mid hi : Z) :
  lo ≤ mid + 1 → mid ≤ hi →
  countWhiteKeys lo hi = countWhiteKeys lo mid + countWhiteKeys (mid + 1) hi.
Proof.
  intros H1 H2. unfold countWhiteKeys.
  replace (hi - lo + 1) with ((mid - lo + 1) + (hi - (mid + 1) + 1)) by lia.
  rewrite seqZ_app by lia. rewrite foldl_app, countStep_fold.
  by replace (lo + (mid - lo + 1)) with (mid + 1) by lia.
Qed.

Lemma isBlackKey_mod (n : Z) : 0 ≤ n → isBlackKey n = isBlackKey (n `mod` 12).
Proof.
  intros Hn. unfold isBlackKey.
  pose proof (Z.mod_pos_bound n 12 eq_refl).
  rewrite !Z.rem_mod_nonneg by lia. by rewrite Z.mod_mod.
Qed.

Lemma isBlackKey_shift (r i q : Z) :
  0 ≤ q → 0 ≤ r → 0 ≤ i → isBlackKey (12 * q + r + i) = isBlackKey ((r + i) `mod` 12).
Proof.
  intros Hq Hr Hi. rewrite isBlackKey_mod by lia. f_equal.
  replace (12 * q + r + i) with (r + i + q * 12) by lia. apply Z.mod_add. lia.
Qed.

Lemma countWhiteKeys_octave (n : Z) : 0 ≤ n → countWhiteKeys n (n + 11) = 7.
Proof.
  intros Hn. unfold countWhiteKeys.
  replace (n + 11 - n + 1) with 12 by lia.
  pose proof (Z.mod_pos_bound n 12 eq_refl) as Hr.
  pose proof (Z.div_mod n 12) as Hdm.
  assert (Hq : 0 ≤ n `div` 12) by (apply Z.div_pos; lia).
  set (q := n `div` 12) in *. set (r := n `mod` 12) in *.
  assert (Hseq : seqZ n 12 = [n + 0; n + 1; n + 2; n + 3; n + 4; n + 5; n + 6; n + 7;
                              n + 8; n + 9; n + 10; n + 11]).
  { unfold seqZ. simpl. repeat (f_equal; try lia). }
  rewrite Hseq. cbn [foldl]. rewrite Hdm by lia.
  rewrite !isBlackKey_shift by lia.
  destruct (mod12_cases r Hr) as [E|[E|[E|[E|[E|[E|[E|[E|[E|[E|[E|E]]]]]]]]]]];
    rewrite E; reflexivity.
Qed.

(** X26. The keyboard has seven white keys to the octave: a run of [k]
    whole octaves starting at any non-negative note number contains exactly
    7 * k white keys, and a range whose top lies below its bottom contains
    none. *)
Theorem white_keys_per_octave (lo : Z) (k : nat) :
  0 ≤ lo →
  countWhiteKeys lo (lo + 12 * Z.of_nat k - 1) = 7 * Z.of_nat k
  ∧ (∀ hi, hi < lo → countWhiteKeys lo hi = 0).
Proof.
  intros Hlo. split.
  - induction k as [|k IH].
    + unfold countWhiteKeys. by rewrite seqZ_nil by lia.
    + rewrite (countWhiteKeys_split lo (lo + 12 * Z.of_nat k - 1)) by lia.
      rewrite IH.
      replace (lo + 12 * Z.of_nat k - 1 + 1) with (lo + 12 * Z.of_nat k) by lia.
      replace (lo + 12 * Z.of_nat (S k) - 1) with (lo + 12 * Z.of_nat k + 11) by lia.
      rewrite countWhiteKeys_octave by lia. lia.
  - intros hi Hhi. unfold countWhiteKeys. by rewrite seqZ_nil by lia.
Qed.

Lemma white_keys_per_octave_witness :
  countWhiteKeys 48 (48 + 12 * Z.of_nat 3 - 1) = 7 * Z.of_nat 3
  ∧ (∀ hi, hi < 48 → countWhiteKeys 48 hi = 0).
Proof. apply (white_keys_per_octave 48 3). lia. Defined.

End KeyboardLayout.

(** ** Selection keys and the frame of the time edits *)

Section SelectionKeys.

Import PianoRoll.

Local Open Scope Q_scope.

(** X27. With a selection and the edit callback in place, Ctrl/Cmd+A
    selects exactly the indices of the store and Escape clears the
    selection; neither passes any notes on. *)
Theorem select_all_and_escape_past_guard (pr : Props) (sel : gset nat) (ctrl meta : bool) :
  size sel ≠ 0%nat → onNotesChange pr = true → ctrl || meta = true →
  emitted (handleKeyDown pr sel (mkKey "a" ctrl meta)) = []
  ∧ (∀ i, i ∈ selection (handleKeyDown pr sel (mkKey "a" ctrl meta))
          ↔ (i < length (notes pr))%nat)
  ∧ handleKeyDown pr sel (mkKey "Escape" ctrl meta) = {| selection := ∅; emitted := [] |}.
Proof.
  intros Hsel Hcb Hmod. rewrite handleKeyDown_select_all by done.
  split; [done|]. split; [intros i; apply allIndices_spec|].
  by apply handleKeyDown_escape.
Qed.

Lemma select_all_and_escape_past_guard_witness :
  let pr := mkProps [mkNote 60 0 1 None; mkNote 62 1 1 None] 100 120 0 "1/8" true in
  emitted (handleKeyDown pr {[0%nat]} (mkKey "a" true false)) = []
  ∧ (∀ i, i ∈ selection (handleKeyDown pr {[0%nat]} (mkKey "a" true false))
          ↔ (i < length (notes pr))%nat)
  ∧ handleKeyDown pr {[0%nat]} (mkKey "Escape" true false)
    = {| selection := ∅; emitted := [] |}.
Proof.
  intros pr. apply (select_all_and_escape_past_guard pr {[0%nat]} true false).
  - by rewrite size_singleton.
  - reflexivity.
  - reflexivity.
Defined.




End SelectionKeys.
